(** * Hydromet Concepts Explorer: the numeric core of [streamlit_app.py]

    The script evaluates four infiltration formulas (Green-Ampt, Philip,
    Horton, SCS Curve Number).  Each branch of its [if equation == ...]
    chain is embedded here as a function of the values the sliders deliver
    and, for the three time-series models, of the time array.

    Numbers.  Python and NumPy floats are embedded as real numbers: rounding
    and overflow are not modelled.  What is modelled is the way the two
    kinds of float treat a zero divisor, because the branches differ there:
    - a Python scalar division raises [ZeroDivisionError] ([py_div] returns
      [None]);
    - a NumPy array division returns [inf], [-inf] or [nan] ([np_div] returns
      a non-finite [npfloat]). *)

From Stdlib Require Import Reals Lra Lia.
From stdpp Require Import base option list.

Open Scope R_scope.

(** ** Python scalar floats *)

(** [a / b] on Python floats (and [int / int], which is true division).
    The test for a zero divisor is on the exact value: a divisor that only
    rounds to zero, or is zero only before rounding, is outside the
    model. *)
Definition py_div (a b : R) : option R :=
  if Req_dec_T b 0 then None else Some (a / b).

(** ** NumPy float64 values *)

Inductive npfloat : Type :=
  | Fin (r : R)
  | PInf
  | NInf
  | NaN.


(** The infinity carrying the sign of [r]; [nan] when [r] is zero. *)
Definition inf_of_sign (r : R) : npfloat :=
  if Rlt_dec 0 r then PInf else if Rlt_dec r 0 then NInf else NaN.

Definition np_add (a b : npfloat) : npfloat :=
  match a, b with
  | NaN, _ | _, NaN => NaN
  | Fin x, Fin y => Fin (x + y)
  | PInf, NInf | NInf, PInf => NaN
  | PInf, _ | _, PInf => PInf
  | NInf, _ | _, NInf => NInf
  end.

Definition np_mul (a b : npfloat) : npfloat :=
  match a, b with
  | NaN, _ | _, NaN => NaN
  | Fin x, Fin y => Fin (x * y)
  | Fin x, PInf | PInf, Fin x => inf_of_sign x
  | Fin x, NInf | NInf, Fin x => inf_of_sign (- x)
  | PInf, PInf | NInf, NInf => PInf
  | PInf, NInf | NInf, PInf => NInf
  end.

(** Array division: a zero divisor gives an infinity (or [nan] for 0/0)
    and a warning, never an exception.  The reals have one zero, so the
    infinity takes its sign from the dividend alone: the opposite sign that
    a divisor [-0.0] gives is outside the model. *)
Definition np_div (a b : npfloat) : npfloat :=
  match a, b with
  | NaN, _ | _, NaN => NaN
  | Fin x, Fin y => if Req_dec_T y 0 then inf_of_sign x else Fin (x / y)
  | Fin _, (PInf | NInf) => Fin 0
  | PInf, Fin y => if Rlt_dec y 0 then NInf else PInf
  | NInf, Fin y => if Rlt_dec y 0 then PInf else NInf
  | (PInf | NInf), (PInf | NInf) => NaN
  end.

(** [np.sqrt] on an array element. *)
Definition np_sqrt (t : R) : npfloat :=
  if Rlt_dec t 0 then NaN else Fin (sqrt t).

(** [t ** (-0.5)] on an array element: [inf] at zero, [nan] below. *)
Definition np_pow_neg_half (t : R) : npfloat :=
  if Rlt_dec 0 t then Fin (Rpower t (- (5 / 10)))
  else if Rlt_dec t 0 then NaN else PInf.

(** [np.linspace(start, stop, num)] for [num > 1]. *)
Definition linspace (start stop : R) (num : nat) : list R :=
  let step := (stop - start) / INR (num - 1) in
  (fun i : nat => start + INR i * step) <$> seq 0 num.

(** ** Green-Ampt branch (lines 69-84) *)

Module GreenAmpt.

(** Line 78. *)
Definition time : list R := linspace (1 / 10) 24 100.

(** Lines 75 and 81-84 over a time array; the result is the pair
    [(infiltration_rate, cumulative_infiltration)]. *)
Definition green_ampt (Ks psi theta_i theta_s : R) (time : list R)
  : list npfloat * list R :=
  let delta_theta := theta_s - theta_i in
  let F := (fun t => Ks * t) <$> time in
  let infiltration_rate :=
    (fun f => np_mul (Fin Ks)
                (np_add (Fin 1) (np_div (Fin (psi * delta_theta)) (Fin f))))
    <$> F in
  let cumulative_infiltration := F in
  (infiltration_rate, cumulative_infiltration).

(** The branch as the script runs it, on the values of its sliders. *)
Definition branch (Ks psi theta_i theta_s : R) : list npfloat * list R :=
  green_ampt Ks psi theta_i theta_s time.

End GreenAmpt.

(** ** Philip branch (lines 133-141) *)

Module Philip.

(** Line 137. *)
Definition time : list R := linspace (1 / 10) 24 100.

(** Lines 140-141 over a time array. *)
Definition philip (S K : R) (time : list R) : list npfloat * list npfloat :=
  let infiltration_rate :=
    (fun t => np_add (np_mul (Fin (5 / 10 * S)) (np_pow_neg_half t)) (Fin K))
    <$> time in
  let cumulative_infiltration :=
    (fun t => np_add (np_mul (Fin S) (np_sqrt t)) (Fin (K * t))) <$> time in
  (infiltration_rate, cumulative_infiltration).

(** The branch as the script runs it, on the values of its sliders. *)
Definition branch (S K : R) : list npfloat * list npfloat :=
  philip S K time.

End Philip.

(** ** Horton branch (lines 187-200) *)

Module Horton.

(** Line 192. *)
Definition time : list R := linspace 0 24 100.

(** Line 195. *)
Definition rate (f0 fc k : R) (time : list R) : list R :=
  (fun t => fc + (f0 - fc) * exp (- k * t)) <$> time.

(** Lines 199-200: one pass of the loop body at index [i], on the array
    [cumulative_infiltration] as it stands.  The loop starts at 1, so
    [i - 1] never wraps around; [None] is an [IndexError]. *)
Definition body (time infiltration_rate : list R)
    (cumulative_infiltration : list R) (i : nat) : option (list R) :=
  ti ← time !! i;
  tp ← time !! (i - 1)%nat;
  let dt := ti - tp in
  cp ← cumulative_infiltration !! (i - 1)%nat;
  ri ← infiltration_rate !! i;
  if decide (i < length cumulative_infiltration)%nat
  then Some (<[i := cp + ri * dt]> cumulative_infiltration)
  else None.

(** [for i in idx: st = body(st, i)]. *)
Fixpoint for_range (body : list R -> nat -> option (list R))
    (idx : list nat) (st : list R) : option (list R) :=
  match idx with
  | [] => Some st
  | i :: rest => st' ← body st i; for_range body rest st'
  end.

(** Lines 195-200 over a time array; the result is the pair
    [(infiltration_rate, cumulative_infiltration)]. *)
Definition horton (f0 fc k : R) (time : list R) : option (list R * list R) :=
  let infiltration_rate := rate f0 fc k time in
  let zeros := replicate (length time) 0 in
  cumulative_infiltration ←
    for_range (body time infiltration_rate) (seq 1 (length time - 1)) zeros;
  Some (infiltration_rate, cumulative_infiltration).

(** The branch as the script runs it, on the values of its sliders. *)
Definition branch (f0 fc k : R) : option (list R * list R) :=
  horton f0 fc k time.

End Horton.

(** ** SCS Curve Number branch (lines 243-269) *)

Module SCS.

(** The local variables of the branch after line 262. *)
Record Vars : Type := mkVars {
  S : R;
  Ia : R;
  Q : R;
  F : R;
  infiltration : R
}.

(** What the four [st.write] calls of lines 266-269 show, in their
    order (the two-decimal formatting is not modelled). *)
Record RunoffResult : Type := mkRunoffResult {
  shown_S : R;
  shown_Ia : R;
  shown_infiltration : R;
  shown_Q : R
}.

(** Lines 248-262.  [CN] is an integer in the script; [25400 / CN] is a
    true division, so it is taken as a real here. *)
Definition scs (P CN Ia_ratio : R) : option Vars :=
  q ← py_div 25400 CN;
  let S_mm := q - 254 in
  S ← py_div S_mm 10;
  let Ia := Ia_ratio * S in
  Q ← (if Rgt_dec P Ia
       then py_div ((P - Ia) ^ 2) (P - Ia + S)
       else Some 0);
  F ← py_div (S * (P - Ia)) (P - Ia + S);
  let infiltration := P - Q in
  Some (mkVars S Ia Q F infiltration).

(** Lines 266-269. *)
Definition results (v : Vars) : RunoffResult :=
  mkRunoffResult (S v) (Ia v) (infiltration v) (Q v).

Definition runoff (P CN Ia_ratio : R) : option RunoffResult :=
  results <$> scs P CN Ia_ratio.

End SCS.

(** ** Shapes of a series *)

(** Each entry is below the next one. *)
Definition increasing (l : list R) : Prop :=
  forall (i : nat) (a b : R), l !! i = Some a -> l !! Datatypes.S i = Some b -> a < b.

(** No entry is above the next one. *)
Definition non_decreasing (l : list R) : Prop :=
  forall (i : nat) (a b : R), l !! i = Some a -> l !! Datatypes.S i = Some b -> a <= b.

(** ** Slider ranges *)

(** [st.slider(label, lo, hi, value, step)] delivers a number from [lo] to
    [hi]. *)
Definition slider (lo hi v : R) : Prop := lo <= v <= hi.

(** Lines 69-72. *)
Definition green_ampt_sliders (Ks psi theta_i theta_s : R) : Prop :=
  slider (1 / 10) 10 Ks /\ slider 5 50 psi /\
  slider (1 / 10) (5 / 10) theta_i /\ slider (3 / 10) (6 / 10) theta_s.

(** Lines 133-134. *)
Definition philip_sliders (S K : R) : Prop :=
  slider (1 / 10) 5 S /\ slider (1 / 10) 10 K.

(** Lines 187-189. *)
Definition horton_sliders (f0 fc k : R) : Prop :=
  slider (1 / 10) 20 f0 /\ slider (1 / 100) 5 fc /\ slider (1 / 10) 5 k.

(** Lines 243-245; the curve number slider has integer bounds and step, so
    it delivers an integer. *)
Definition scs_sliders (P CN Ia_ratio : R) : Prop :=
  slider (1 / 10) 20 P /\
  (exists n : Z, CN = IZR n /\ (30 <= n <= 100)%Z) /\
  slider (5 / 100) (3 / 10) Ia_ratio.

(** * Properties *)

(** ** SCS Curve Number *)

Section SCS_facts.

Import SCS.

Lemma py_div_Some (a b : R) : b <> 0 -> py_div a b = Some (a / b).
Proof.
  intros Hb. unfold py_div.
  destruct (Req_dec_T b 0); [contradiction | reflexivity].
Qed.

Lemma py_div_None (a : R) : py_div a 0 = None.
Proof. unfold py_div. destruct (Req_dec_T 0 0); [reflexivity | lra]. Qed.

(** Lines 248-249 give the retention in centimetres. *)
Lemma retention_cm (CN : R) :
  CN <> 0 -> (25400 / CN - 254) / 10 = 2540 / CN - 254 / 10.
Proof. intros H. field. exact H. Qed.

Lemma retention_nonneg (CN : R) : 0 < CN <= 100 -> 0 <= 2540 / CN - 254 / 10.
Proof.
  intros [H0 H100].
  assert (100 / 100 <= 100 / CN).
  { unfold Rdiv. apply Rmult_le_compat_l; [lra|]. apply Rinv_le_contravar; lra. }
  lra.
Qed.

Lemma retention_pos (CN : R) : 0 < CN < 100 -> 0 < 2540 / CN - 254 / 10.
Proof.
  intros [H0 H100].
  assert (100 / 100 < 100 / CN).
  { unfold Rdiv. apply Rmult_lt_compat_l; [lra|]. apply Rinv_lt_contravar; nra. }
  lra.
Qed.

(** The branch runs to its end exactly when the divisor of lines 254 and
    259 is not zero, and then its variables hold these values. *)
Lemma scs_eval (P CN Ia_ratio : R) :
  let S := 2540 / CN - 254 / 10 in
  let Ia := Ia_ratio * S in
  let Q := if Rgt_dec P Ia then (P - Ia) ^ 2 / (P - Ia + S) else 0 in
  CN <> 0 -> P - Ia + S <> 0 ->
  scs P CN Ia_ratio
  = Some (mkVars S Ia Q (S * (P - Ia) / (P - Ia + S)) (P - Q)).
Proof.
  intros S Ia Q HCN Hden. unfold scs.
  rewrite (py_div_Some _ CN HCN). cbn [mbind option_bind].
  rewrite (py_div_Some _ 10) by lra. cbn [mbind option_bind].
  rewrite (retention_cm CN HCN). fold S. fold Ia.
  rewrite (py_div_Some (S * (P - Ia)) _ Hden).
  unfold Q. destruct (Rgt_dec P Ia).
  - rewrite (py_div_Some _ _ Hden). reflexivity.
  - reflexivity.
Qed.

Lemma scs_ZeroDivisionError (P CN Ia_ratio : R) :
  let S := 2540 / CN - 254 / 10 in
  CN <> 0 -> P - Ia_ratio * S + S = 0 -> scs P CN Ia_ratio = None.
Proof.
  intros S HCN Hden. unfold scs.
  rewrite (py_div_Some _ CN HCN). cbn [mbind option_bind].
  rewrite (py_div_Some _ 10) by lra. cbn [mbind option_bind].
  rewrite (retention_cm CN HCN). fold S. rewrite Hden, !py_div_None.
  destruct (Rgt_dec P (Ia_ratio * S)); reflexivity.
Qed.

(** C1.  For every rainfall [P > 0], curve number [CN] in (0,100] and
    abstraction ratio [Ia_ratio], a run of the branch that reaches its end
    has computed, in order, [S = 2540/CN - 25.4], [Ia = Ia_ratio * S],
    [Q = (P - Ia)^2 / (P - Ia + S)] if [P > Ia] and [Q = 0] otherwise, and
    [infiltration = P - Q], which are the four values shown; the run
    reaches its end for every setting of the three sliders.  For [P = 5],
    [CN = 70], [Ia_ratio = 0.2] the values are within 0.01 of 10.886,
    2.177, 0.581 and 4.419. *)
Theorem scs_computes :
  (forall (P CN Ia_ratio : R) (v : Vars),
      let S := 2540 / CN - 254 / 10 in
      let Ia := Ia_ratio * S in
      0 < P -> 0 < CN <= 100 -> scs P CN Ia_ratio = Some v ->
      SCS.S v = S /\
      SCS.Ia v = Ia /\
      (P > Ia -> SCS.Q v = (P - Ia) ^ 2 / (P - Ia + S)) /\
      (P <= Ia -> SCS.Q v = 0) /\
      infiltration v = P - SCS.Q v /\
      runoff P CN Ia_ratio
      = Some (mkRunoffResult S Ia (P - SCS.Q v) (SCS.Q v))) /\
  (forall P CN Ia_ratio : R,
      scs_sliders P CN Ia_ratio ->
      exists v : Vars, scs P CN Ia_ratio = Some v) /\
  (exists r : RunoffResult,
      runoff 5 70 (2 / 10) = Some r /\
      Rabs (shown_S r - 10886 / 1000) <= 1 / 100 /\
      Rabs (shown_Ia r - 2177 / 1000) <= 1 / 100 /\
      Rabs (shown_Q r - 581 / 1000) <= 1 / 100 /\
      Rabs (shown_infiltration r - 4419 / 1000) <= 1 / 100).
Proof.
  split; [| split].
  - intros P CN Ia_ratio v S Ia HP HCN Hv.
    assert (HCN0 : CN <> 0) by lra.
    destruct (Req_dec_T (P - Ia + S) 0) as [Hz | Hden].
    { rewrite (scs_ZeroDivisionError P CN Ia_ratio HCN0 Hz) in Hv.
      discriminate. }
    pose proof (scs_eval P CN Ia_ratio HCN0 Hden) as E. cbv zeta in E.
    fold S Ia in E. unfold runoff. rewrite E. rewrite E in Hv.
    injection Hv as <-. cbn.
    repeat split; try reflexivity.
    + intros Hgt. destruct (Rgt_dec P Ia); [reflexivity | contradiction].
    + intros Hle. destruct (Rgt_dec P Ia); [lra | reflexivity].
  - intros P CN Ia_ratio ([HP0 HP1] & (n & -> & Hn0 & Hn1) & [Hr0 Hr1]).
    assert (HCN : 30 <= IZR n <= 100) by (split; apply IZR_le; lia).
    pose proof (retention_nonneg (IZR n) ltac:(lra)) as HS.
    rewrite (scs_eval P (IZR n) Ia_ratio ltac:(lra) ltac:(nra)).
    eexists. reflexivity.
  - assert (Hden : 5 - 2 / 10 * (2540 / 70 - 254 / 10) + (2540 / 70 - 254 / 10) <> 0)
      by lra.
    pose proof (scs_eval 5 70 (2 / 10) ltac:(lra) Hden) as E. cbv zeta in E.
    unfold runoff. rewrite E.
    destruct (Rgt_dec 5 (2 / 10 * (2540 / 70 - 254 / 10))) as [_ | Hn]; [| lra].
    replace ((5 - 2 / 10 * (2540 / 70 - 254 / 10)) ^ 2
             / (5 - 2 / 10 * (2540 / 70 - 254 / 10) + (2540 / 70 - 254 / 10)))
      with (244036 / 419825) by (field; lra).
    eexists. split; [reflexivity |].
    cbn [results shown_S shown_Ia shown_Q shown_infiltration
         SCS.S SCS.Ia SCS.Q infiltration].
    repeat split; apply Rabs_le; lra.
Qed.

Lemma scs_sliders_1_70 : scs_sliders 1 70 (2 / 10).
Proof.
  unfold scs_sliders, slider. split; [lra |]. split; [| lra].
  exists 70%Z. split; [reflexivity | lia].
Qed.

(** C1, witness: a storm below the initial abstraction, on the sliders. *)
Lemma scs_computes_witness :
  exists v : Vars, scs 1 70 (2 / 10) = Some v /\ SCS.Q v = 0.
Proof.
  destruct scs_computes as (Hrun & Hsliders & _).
  destruct (Hsliders 1 70 (2 / 10) scs_sliders_1_70) as [v E].
  exists v. split; [exact E |].
  destruct (Hrun 1 70 (2 / 10) v) as (_ & _ & _ & HQ & _).
  - lra.
  - lra.
  - exact E.
  - apply HQ. lra.
Defined.

(** Beyond the range of the ratio slider line 259 can stop the run before
    line 262: with [P = 25.4], [CN = 50], [Ia_ratio = 2] the retention is
    25.4 and the abstraction 50.8, so [P - Ia + S] is zero and the
    division for the auxiliary [F] raises [ZeroDivisionError]. *)
Lemma scs_divisor_zero :
  0 < 254 / 10 /\ 0 < 50 <= 100 /\
  scs (254 / 10) 50 2 = None /\ runoff (254 / 10) 50 2 = None.
Proof.
  assert (E : scs (254 / 10) 50 2 = None).
  { apply scs_ZeroDivisionError; lra. }
  unfold runoff. rewrite E. repeat split; lra.
Qed.

(** A result is shown only if the divisor of lines 254 and 259 was not
    zero. *)
Lemma runoff_Some_inv (P CN Ia_ratio : R) (r : RunoffResult) :
  let S := 2540 / CN - 254 / 10 in
  let Ia := Ia_ratio * S in
  let Q := if Rgt_dec P Ia then (P - Ia) ^ 2 / (P - Ia + S) else 0 in
  CN <> 0 -> runoff P CN Ia_ratio = Some r ->
  P - Ia + S <> 0 /\ r = mkRunoffResult S Ia (P - Q) Q.
Proof.
  intros S Ia Q HCN Hr. unfold runoff in Hr.
  destruct (Req_dec_T (P - Ia + S) 0) as [Hz | Hnz].
  - rewrite (scs_ZeroDivisionError P CN Ia_ratio HCN Hz) in Hr. discriminate.
  - split; [exact Hnz |].
    rewrite (scs_eval P CN Ia_ratio HCN Hnz) in Hr. cbv zeta in Hr.
    injection Hr as <-. reflexivity.
Qed.

(** C5.  For every [P > 0], [CN] in (0,100] and any [Ia_ratio], a result
    the branch shows has [Q >= 0] and [infiltration = P - Q], and when
    [P <= Ia] it has [Q = 0] and [infiltration = P] exactly; a result is
    shown whenever the divisor [P - Ia + S] is not zero. *)
Theorem scs_result_invariant (P CN Ia_ratio : R) :
  let S := 2540 / CN - 254 / 10 in
  let Ia := Ia_ratio * S in
  0 < P -> 0 < CN <= 100 ->
  (forall r : RunoffResult,
      runoff P CN Ia_ratio = Some r ->
      0 <= shown_Q r /\
      shown_infiltration r = P - shown_Q r /\
      (P <= Ia -> shown_Q r = 0 /\ shown_infiltration r = P)) /\
  (P - Ia + S <> 0 -> exists r : RunoffResult, runoff P CN Ia_ratio = Some r).
Proof.
  intros S Ia HP HCN. assert (HCN0 : CN <> 0) by lra.
  pose proof (retention_nonneg CN HCN) as HS. fold S in HS.
  split.
  - intros r Hr.
    destruct (runoff_Some_inv P CN Ia_ratio r HCN0 Hr) as [Hden ->].
    fold S Ia in Hden |- *. cbn [shown_Q shown_infiltration].
    destruct (Rgt_dec P Ia) as [Hgt | Hngt].
    + split; [| split; [reflexivity | intros; lra]].
      apply Rlt_le, Rdiv_lt_0_compat; [| lra].
      apply pow_lt. lra.
    + split; [lra | split; [reflexivity | intros; split; lra]].
  - intros Hden. unfold runoff.
    rewrite (scs_eval P CN Ia_ratio HCN0 Hden). eexists. reflexivity.
Qed.

(** C5, witness: the storm [P = 1] on [CN = 70], where [Ia] is about 2.18. *)
Lemma scs_result_invariant_witness :
  exists r : RunoffResult,
    runoff 1 70 (2 / 10) = Some r /\ shown_Q r = 0 /\ shown_infiltration r = 1.
Proof.
  destruct (scs_result_invariant 1 70 (2 / 10)) as [Hinv Hshown].
  - lra.
  - lra.
  - destruct Hshown as [r Hr]; [lra |].
    exists r. split; [exact Hr |].
    destruct (Hinv r Hr) as (_ & _ & Hbelow). apply Hbelow. lra.
Defined.

(** C10.  Line 259 computes [F = S * (P - Ia) / (P - Ia + S)] whether or
    not [P > Ia].  For [P > 0], [CN] in (0,100), [0 < Ia_ratio < 1] and
    [P <= Ia] the branch runs to its end with this [F], which is [<= 0];
    what is shown is [S], [Ia], [infiltration = P - Q] and [Q], and does
    not depend on [F]. *)
Theorem scs_auxiliary_F (P CN Ia_ratio : R) :
  let S := 2540 / CN - 254 / 10 in
  let Ia := Ia_ratio * S in
  0 < P -> 0 < CN < 100 -> 0 < Ia_ratio < 1 -> P <= Ia ->
  exists v : Vars,
    scs P CN Ia_ratio = Some v /\
    SCS.F v = S * (P - Ia) / (P - Ia + S) /\
    SCS.F v <= 0 /\
    runoff P CN Ia_ratio
    = Some (mkRunoffResult S Ia (P - SCS.Q v) (SCS.Q v)) /\
    (forall F' : R,
        results (mkVars (SCS.S v) (SCS.Ia v) (SCS.Q v) F' (infiltration v))
        = results v).
Proof.
  intros S Ia HP HCN Hr Hle. assert (HCN0 : CN <> 0) by lra.
  pose proof (retention_pos CN HCN) as HS. fold S in HS.
  assert (Hden : 0 < P - Ia + S) by (unfold Ia in *; nra).
  pose proof (scs_eval P CN Ia_ratio HCN0 ltac:(fold S Ia; lra)) as E.
  cbv zeta in E. fold S Ia in E.
  eexists. split; [exact E |]. unfold runoff. rewrite E.
  cbn [SCS.F SCS.S SCS.Ia SCS.Q infiltration results fmap option_fmap option_map].
  repeat split.
  pose proof (Rinv_0_lt_compat _ Hden) as Hinv.
  assert (Hnum : S * (P - Ia) <= 0) by nra.
  unfold Rdiv. nra.
Qed.

(** C10, witness: [P = 1], [CN = 70], [Ia_ratio = 0.2]. *)
Lemma scs_auxiliary_F_witness :
  exists v : Vars, scs 1 70 (2 / 10) = Some v /\ SCS.F v <= 0.
Proof.
  destruct (scs_auxiliary_F 1 70 (2 / 10)) as (v & E & _ & HF & _).
  - lra.
  - lra.
  - lra.
  - lra.
  - exists v. split; [exact E | exact HF].
Defined.

End SCS_facts.

(** ** NumPy arithmetic at the points where it stays finite *)

Lemma np_div_Fin (x y : R) : y <> 0 -> np_div (Fin x) (Fin y) = Fin (x / y).
Proof.
  intros Hy. unfold np_div.
  destruct (Req_dec_T y 0); [contradiction | reflexivity].
Qed.

Lemma np_pow_neg_half_pos (t : R) :
  0 < t -> np_pow_neg_half t = Fin (Rpower t (- (5 / 10))).
Proof.
  intros Ht. unfold np_pow_neg_half.
  destruct (Rlt_dec 0 t); [reflexivity | contradiction].
Qed.

Lemma np_sqrt_nonneg (t : R) : 0 <= t -> np_sqrt t = Fin (sqrt t).
Proof.
  intros Ht. unfold np_sqrt. destruct (Rlt_dec t 0); [lra | reflexivity].
Qed.

Lemma inf_of_sign_pos (r : R) : 0 < r -> inf_of_sign r = PInf.
Proof.
  intros Hr. unfold inf_of_sign. destruct (Rlt_dec 0 r); [reflexivity | contradiction].
Qed.

(** [t ** (-0.5)] is the inverse of the square root. *)
Lemma Rpower_neg_half (t : R) : 0 < t -> Rpower t (- (5 / 10)) = / sqrt t.
Proof.
  intros Ht. rewrite Rpower_Ropp. f_equal.
  replace (5 / 10) with (/ 2) by lra. apply Rpower_sqrt, Ht.
Qed.

(** ** The time arrays of the script *)

Lemma linspace_length (start stop : R) (num : nat) :
  length (linspace start stop num) = num.
Proof. unfold linspace. rewrite length_fmap, length_seq. reflexivity. Qed.

Lemma linspace_lookup (start stop : R) (num i : nat) (t : R) :
  linspace start stop num !! i = Some t ->
  (i < num)%nat /\ t = start + INR i * ((stop - start) / INR (num - 1)).
Proof.
  unfold linspace. rewrite list_lookup_fmap. intros H.
  destruct (seq 0 num !! i) as [j |] eqn:Hj; [| discriminate].
  apply lookup_seq in Hj as [-> Hlt]. injection H as <-. split; [exact Hlt | reflexivity].
Qed.

Lemma linspace_ge_start (start stop : R) (num i : nat) (t : R) :
  start <= stop -> linspace start stop num !! i = Some t -> start <= t.
Proof.
  intros Hle H. apply linspace_lookup in H as [_ ->].
  assert (0 <= INR i) by apply pos_INR.
  assert (0 <= INR (num - 1)) by apply pos_INR.
  assert (0 <= / INR (num - 1)).
  { destruct (Req_dec_T (INR (num - 1)) 0) as [-> | Hn].
    - rewrite Rinv_0. lra.
    - apply Rlt_le, Rinv_0_lt_compat. lra. }
  assert (0 <= (stop - start) / INR (num - 1))
    by (apply Rmult_le_pos; lra).
  assert (0 <= INR i * ((stop - start) / INR (num - 1)))
    by (apply Rmult_le_pos; lra).
  lra.
Qed.

Lemma linspace_increasing (start stop : R) (num : nat) :
  start < stop -> increasing (linspace start stop num).
Proof.
  intros Hlt i a b Ha Hb.
  apply linspace_lookup in Ha as [_ ->]. apply linspace_lookup in Hb as [Hi ->].
  assert (Hn : 0 < INR (num - 1)) by (apply lt_0_INR; lia).
  assert (Hstep : 0 < (stop - start) / INR (num - 1))
    by (apply Rdiv_lt_0_compat; lra).
  rewrite S_INR. nra.
Qed.

Lemma linspace_nonneg (start stop : R) (num : nat) :
  0 <= start -> start <= stop -> Forall (Rle 0) (linspace start stop num).
Proof.
  intros H0 Hle. apply Forall_lookup. intros i t Ht.
  pose proof (linspace_ge_start start stop num i t Hle Ht). lra.
Qed.

(** ** Green-Ampt *)

Section GreenAmpt_facts.

Import GreenAmpt.

Variables Ks psi theta_i theta_s : R.

(** The rate of line 83 at a time [t]. *)
Local Abbreviation ga_rate t :=
  (np_mul (Fin Ks)
     (np_add (Fin 1) (np_div (Fin (psi * (theta_s - theta_i))) (Fin (Ks * t))))).

Lemma ga_rate_Fin (t : R) :
  Ks * t <> 0 ->
  ga_rate t = Fin (Ks * (1 + psi * (theta_s - theta_i) / (Ks * t))).
Proof. intros Hnz. rewrite np_div_Fin by exact Hnz. reflexivity. Qed.

Lemma green_ampt_lookup (time : list R) (i : nat) :
  fst (green_ampt Ks psi theta_i theta_s time) !! i
  = (fun t => ga_rate t) <$> time !! i /\
  snd (green_ampt Ks psi theta_i theta_s time) !! i = Rmult Ks <$> time !! i.
Proof.
  unfold green_ampt. cbn [fst snd]. rewrite !list_lookup_fmap.
  destruct (time !! i); split; reflexivity.
Qed.

Lemma green_ampt_length (time : list R) :
  length (fst (green_ampt Ks psi theta_i theta_s time)) = length time /\
  length (snd (green_ampt Ks psi theta_i theta_s time)) = length time.
Proof. unfold green_ampt. cbn [fst snd]. rewrite !length_fmap. split; reflexivity. Qed.

(** For a positive conductivity the rate is [Ks + psi * delta_theta / t]. *)
Lemma ga_rate_simpl (t : R) :
  0 < Ks -> 0 < t ->
  Ks * (1 + psi * (theta_s - theta_i) / (Ks * t))
  = Ks + psi * (theta_s - theta_i) / t.
Proof. intros HK Ht. field. split; lra. Qed.

Lemma ga_rate_decreasing (t1 t2 : R) :
  0 < Ks -> 0 < psi -> theta_i < theta_s -> 0 < t1 -> t1 < t2 ->
  Ks * (1 + psi * (theta_s - theta_i) / (Ks * t2))
  < Ks * (1 + psi * (theta_s - theta_i) / (Ks * t1)).
Proof.
  intros HK Hpsi Hth H1 H12. rewrite !ga_rate_simpl by lra.
  assert (Hinv : / t2 < / t1) by (apply Rinv_lt_contravar; nra).
  assert (Hc : 0 < psi * (theta_s - theta_i)) by nra.
  unfold Rdiv. nra.
Qed.

Lemma green_ampt_cumulative_non_decreasing (time : list R) :
  0 < Ks -> increasing time ->
  non_decreasing (snd (green_ampt Ks psi theta_i theta_s time)).
Proof.
  intros HK Hinc i a b Ha Hb.
  rewrite (proj2 (green_ampt_lookup time _)) in Ha.
  rewrite (proj2 (green_ampt_lookup time _)) in Hb.
  destruct (time !! i) as [t1 |] eqn:E1; [| discriminate].
  destruct (time !! Datatypes.S i) as [t2 |] eqn:E2; [| discriminate].
  injection Ha as <-. injection Hb as <-.
  pose proof (Hinc i t1 t2 E1 E2). nra.
Qed.

End GreenAmpt_facts.

(** ** Philip *)

Section Philip_facts.

Import Philip.

Variables S K : R.

Lemma philip_lookup (time : list R) (i : nat) :
  fst (philip S K time) !! i
  = (fun t => np_add (np_mul (Fin (5 / 10 * S)) (np_pow_neg_half t)) (Fin K))
    <$> time !! i /\
  snd (philip S K time) !! i
  = (fun t => np_add (np_mul (Fin S) (np_sqrt t)) (Fin (K * t))) <$> time !! i.
Proof.
  unfold philip. cbn [fst snd]. rewrite !list_lookup_fmap. split; reflexivity.
Qed.

Lemma philip_rate_Fin (t : R) :
  0 < t ->
  np_add (np_mul (Fin (5 / 10 * S)) (np_pow_neg_half t)) (Fin K)
  = Fin (5 / 10 * S * Rpower t (- (5 / 10)) + K).
Proof. intros Ht. rewrite np_pow_neg_half_pos by exact Ht. reflexivity. Qed.

Lemma philip_cumulative_Fin (t : R) :
  0 <= t ->
  np_add (np_mul (Fin S) (np_sqrt t)) (Fin (K * t)) = Fin (S * sqrt t + K * t).
Proof. intros Ht. rewrite np_sqrt_nonneg by exact Ht. reflexivity. Qed.

Lemma philip_rate_decreasing (t1 t2 : R) :
  0 < S -> 0 < t1 -> t1 < t2 ->
  5 / 10 * S * Rpower t2 (- (5 / 10)) + K
  < 5 / 10 * S * Rpower t1 (- (5 / 10)) + K.
Proof.
  intros HS H1 H12. rewrite !Rpower_neg_half by lra.
  assert (Hs1 : 0 < sqrt t1) by (apply sqrt_lt_R0; lra).
  assert (Hs12 : sqrt t1 < sqrt t2) by (apply sqrt_lt_1; lra).
  assert (Hinv : / sqrt t2 < / sqrt t1) by (apply Rinv_lt_contravar; nra).
  nra.
Qed.

Lemma philip_cumulative_non_decreasing (time : list R) :
  0 < S -> 0 < K -> Forall (Rle 0) time -> increasing time ->
  exists c : list R,
    snd (philip S K time) = Fin <$> c /\ non_decreasing c.
Proof.
  intros HS HK Hpos Hinc.
  exists ((fun t => S * sqrt t + K * t) <$> time). split.
  - unfold philip. cbn [snd]. rewrite <- list_fmap_compose.
    apply list_eq. intros i. rewrite !list_lookup_fmap.
    destruct (time !! i) as [t |] eqn:E; [| reflexivity].
    cbn [fmap option_fmap option_map compose].
    rewrite philip_cumulative_Fin; [reflexivity |].
    exact (proj1 (Forall_lookup _ _) Hpos i t E).
  - intros i a b Ha Hb. rewrite list_lookup_fmap in Ha, Hb.
    destruct (time !! i) as [t1 |] eqn:E1; [| discriminate].
    destruct (time !! Datatypes.S i) as [t2 |] eqn:E2; [| discriminate].
    injection Ha as <-. injection Hb as <-.
    pose proof (Hinc i t1 t2 E1 E2) as H12.
    pose proof (proj1 (Forall_lookup _ _) Hpos i t1 E1) as H1.
    assert (sqrt t1 <= sqrt t2) by (apply sqrt_le_1; lra).
    nra.
Qed.

End Philip_facts.

(** ** Green-Ampt and Philip: the claims *)

(** C3.  For [Ks > 0], [psi > 0], any [theta_i], [theta_s] and a point
    [t > 0] of the time array, the Green-Ampt branch returns
    [cumulative = Ks * t] and [rate = Ks * (1 + psi * (theta_s - theta_i) /
    (Ks * t))] at that point.  The cumulative value is the explicit
    [F(t) = Ks * t]: for [theta_s > theta_i] it does not satisfy the
    implicit relation [F = Ks*t + psi*dtheta * ln (1 + F / (psi*dtheta))]. *)
Theorem green_ampt_explicit
    (Ks psi theta_i theta_s : R) (time : list R) (i : nat) (t : R) :
  0 < Ks -> 0 < psi -> time !! i = Some t -> 0 < t ->
  let series := GreenAmpt.green_ampt Ks psi theta_i theta_s time in
  let F := Ks * t in
  snd series !! i = Some F /\
  fst series !! i
  = Some (Fin (Ks * (1 + psi * (theta_s - theta_i) / (Ks * t)))) /\
  length (fst series) = length time /\
  length (snd series) = length time /\
  (theta_i < theta_s ->
   F <> Ks * t
        + psi * (theta_s - theta_i) * ln (1 + F / (psi * (theta_s - theta_i)))).
Proof.
  intros HK Hpsi Ht Hpos series F. subst series F.
  destruct (green_ampt_lookup Ks psi theta_i theta_s time i) as [Hr Hc].
  destruct (green_ampt_length Ks psi theta_i theta_s time) as [Lr Lc].
  rewrite Hr, Hc, Ht. cbn [fmap option_fmap option_map].
  rewrite np_div_Fin by nra.
  repeat split; try assumption.
  intros Hth Himpl.
  assert (Hc0 : 0 < psi * (theta_s - theta_i)) by nra.
  assert (Hx : 0 < Ks * t / (psi * (theta_s - theta_i))).
  { apply Rdiv_lt_0_compat; nra. }
  assert (Hln : ln 1 < ln (1 + Ks * t / (psi * (theta_s - theta_i)))).
  { apply ln_increasing; lra. }
  rewrite ln_1 in Hln. nra.
Qed.

(** C3, witness: slider defaults, one hour. *)
Lemma green_ampt_explicit_witness :
  snd (GreenAmpt.green_ampt 1 20 (2 / 10) (5 / 10) [1; 2]) !! 0%nat
  = Some (1 * 1).
Proof.
  refine (proj1 (green_ampt_explicit 1 20 (2 / 10) (5 / 10) [1; 2] 0 1 _ _ _ _)).
  - lra.
  - lra.
  - reflexivity.
  - lra.
Defined.

(** C4.  For [S > 0], [K > 0] and a point [t > 0] of the time array, the
    Philip branch returns [rate = 0.5 * S * t^(-0.5) + K] and
    [cumulative = S * t^0.5 + K * t]; with [S = 1], [K = 1] at [t = 1] the
    rate is 1.5 and the cumulative 2. *)
Theorem philip_closed_form :
  (forall (S K : R) (time : list R) (i : nat) (t : R),
      0 < S -> 0 < K -> time !! i = Some t -> 0 < t ->
      fst (Philip.philip S K time) !! i
      = Some (Fin (5 / 10 * S * Rpower t (- (5 / 10)) + K)) /\
      snd (Philip.philip S K time) !! i
      = Some (Fin (S * Rpower t (5 / 10) + K * t))) /\
  Philip.philip 1 1 [1] = ([Fin (15 / 10)], [Fin 2]).
Proof.
  split.
  - intros S K time i t HS HK Ht Hpos.
    destruct (philip_lookup S K time i) as [Hr Hc].
    rewrite Hr, Hc, Ht. cbn [fmap option_fmap option_map].
    rewrite philip_rate_Fin by exact Hpos.
    rewrite philip_cumulative_Fin by lra.
    replace (5 / 10) with (/ 2) by lra.
    rewrite Rpower_sqrt by exact Hpos. split; reflexivity.
  - unfold Philip.philip. cbn [fmap list_fmap].
    rewrite philip_rate_Fin by lra. rewrite philip_cumulative_Fin by lra.
    rewrite sqrt_1. unfold Rpower. rewrite ln_1, Rmult_0_r, exp_0.
    repeat f_equal; lra.
Qed.

(** C4, witness: four hours at the slider defaults. *)
Lemma philip_closed_form_witness :
  snd (Philip.philip 1 1 [1; 4]) !! 1%nat
  = Some (Fin (1 * Rpower 4 (5 / 10) + 1 * 4)).
Proof.
  refine (proj2 (proj1 philip_closed_form 1 1 [1; 4] 1%nat 4 _ _ _ _)).
  - lra.
  - lra.
  - reflexivity.
  - lra.
Defined.

(** C7.  With the parameters fixed (Green-Ampt: [Ks > 0], [psi > 0],
    [theta_s > theta_i]; Philip: [S > 0], [K > 0]), the rate both branches
    compute is strictly decreasing in time: at two points [0 < t1 < t2] of
    the time array the rates are finite and the one at [t1] is the larger. *)
Theorem rate_strictly_decreasing (time : list R) (i j : nat) (t1 t2 : R) :
  time !! i = Some t1 -> time !! j = Some t2 -> 0 < t1 -> t1 < t2 ->
  (forall Ks psi theta_i theta_s : R,
      0 < Ks -> 0 < psi -> theta_i < theta_s ->
      exists r1 r2 : R,
        fst (GreenAmpt.green_ampt Ks psi theta_i theta_s time) !! i
        = Some (Fin r1) /\
        fst (GreenAmpt.green_ampt Ks psi theta_i theta_s time) !! j
        = Some (Fin r2) /\
        r1 > r2) /\
  (forall S K : R,
      0 < S -> 0 < K ->
      exists r1 r2 : R,
        fst (Philip.philip S K time) !! i = Some (Fin r1) /\
        fst (Philip.philip S K time) !! j = Some (Fin r2) /\
        r1 > r2).
Proof.
  intros Hi Hj H1 H12. split.
  - intros Ks psi theta_i theta_s HK Hpsi Hth.
    rewrite !(proj1 (green_ampt_lookup Ks psi theta_i theta_s time _)), Hi, Hj.
    cbn [fmap option_fmap option_map].
    rewrite !ga_rate_Fin by nra.
    do 2 eexists. split; [reflexivity |]. split; [reflexivity |].
    apply Rlt_gt, ga_rate_decreasing; assumption.
  - intros S K HS HK.
    rewrite !(proj1 (philip_lookup S K time _)), Hi, Hj.
    cbn [fmap option_fmap option_map].
    rewrite !philip_rate_Fin by lra.
    do 2 eexists. split; [reflexivity |]. split; [reflexivity |].
    apply Rlt_gt, philip_rate_decreasing; assumption.
Qed.

(** C7, witness: one hour against four hours at the slider defaults. *)
Lemma rate_strictly_decreasing_witness :
  exists r1 r2 : R,
    fst (Philip.philip 1 1 [1; 4]) !! 0%nat = Some (Fin r1) /\
    fst (Philip.philip 1 1 [1; 4]) !! 1%nat = Some (Fin r2) /\
    r1 > r2.
Proof.
  refine (proj2 (rate_strictly_decreasing [1; 4] 0 1 1 4 _ _ _ _) 1 1 _ _).
  - reflexivity.
  - reflexivity.
  - lra.
  - lra.
  - lra.
  - lra.
Defined.



(** ** Horton *)

(** *** Rational bounds on [exp (-1)]

    From [1 + x <= exp x] at [x = -1/1024] and [x = 1/1024], squared ten
    times with the bounds rounded outwards to nine decimals. *)

Lemma exp_double_bounds (x l u l' u' : R) :
  0 <= l -> l <= exp x <= u -> l' <= l * l -> u * u <= u' ->
  l' <= exp (2 * x) <= u'.
Proof.
  intros Hl [Hlo Hhi] Hl' Hu'.
  replace (2 * x) with (x + x) by lra. rewrite exp_plus. nra.
Qed.

Lemma exp_neg1_bounds :
  367699479 / 1000000000 <= exp (- 1) <= 368059218 / 1000000000.
Proof.
  assert (H : 1023 / 1024 <= exp (- (1 / 1024)) <= 1024 / 1025).
  { split.
    - pose proof (exp_ineq1_le (- (1 / 1024))). lra.
    - rewrite exp_Ropp.
      pose proof (exp_ineq1_le (1 / 1024)) as Hge.
      replace (1024 / 1025) with (/ (1 + 1 / 1024)) by (field_simplify; lra).
      apply Rinv_le_contravar; lra. }
  pose proof (exp_double_bounds _ (1023 / 1024) (1024 / 1025)
                (998047828 / 1000000000) (998049733 / 1000000000)
                ltac:(lra) H ltac:(lra) ltac:(lra)) as H'; clear H; rename H' into H.
  pose proof (exp_double_bounds _ (998047828 / 1000000000) (998049733 / 1000000000)
                (996099466 / 1000000000) (996103270 / 1000000000)
                ltac:(lra) H ltac:(lra) ltac:(lra)) as H'; clear H; rename H' into H.
  pose proof (exp_double_bounds _ (996099466 / 1000000000) (996103270 / 1000000000)
                (992214146 / 1000000000) (992221725 / 1000000000)
                ltac:(lra) H ltac:(lra) ltac:(lra)) as H'; clear H; rename H' into H.
  pose proof (exp_double_bounds _ (992214146 / 1000000000) (992221725 / 1000000000)
                (984488911 / 1000000000) (984503952 / 1000000000)
                ltac:(lra) H ltac:(lra) ltac:(lra)) as H'; clear H; rename H' into H.
  pose proof (exp_double_bounds _ (984488911 / 1000000000) (984503952 / 1000000000)
                (969218415 / 1000000000) (969248032 / 1000000000)
                ltac:(lra) H ltac:(lra) ltac:(lra)) as H'; clear H; rename H' into H.
  pose proof (exp_double_bounds _ (969218415 / 1000000000) (969248032 / 1000000000)
                (939384335 / 1000000000) (939441748 / 1000000000)
                ltac:(lra) H ltac:(lra) ltac:(lra)) as H'; clear H; rename H' into H.
  pose proof (exp_double_bounds _ (939384335 / 1000000000) (939441748 / 1000000000)
                (882442928 / 1000000000) (882550798 / 1000000000)
                ltac:(lra) H ltac:(lra) ltac:(lra)) as H'; clear H; rename H' into H.
  pose proof (exp_double_bounds _ (882442928 / 1000000000) (882550798 / 1000000000)
                (778705521 / 1000000000) (778895912 / 1000000000)
                ltac:(lra) H ltac:(lra) ltac:(lra)) as H'; clear H; rename H' into H.
  pose proof (exp_double_bounds _ (778705521 / 1000000000) (778895912 / 1000000000)
                (606382288 / 1000000000) (606678842 / 1000000000)
                ltac:(lra) H ltac:(lra) ltac:(lra)) as H'; clear H; rename H' into H.
  pose proof (exp_double_bounds _ (606382288 / 1000000000) (606678842 / 1000000000)
                (367699479 / 1000000000) (368059218 / 1000000000)
                ltac:(lra) H ltac:(lra) ltac:(lra)) as H'; clear H; rename H' into H.
  replace (- 1) with (2 * (2 * (2 * (2 * (2 * (2 * (2 * (2 * (2 * (2 *
                     - (1 / 1024))))))))))) by lra.
  exact H.
Qed.

Lemma exp_neg2_bounds :
  135202 / 1000000 <= exp (- 2) <= 135468 / 1000000.
Proof.
  pose proof exp_neg1_bounds as H.
  pose proof (exp_double_bounds _ (367699479 / 1000000000)
                (368059218 / 1000000000)
                (135202 / 1000000) (135468 / 1000000)
                ltac:(lra) H ltac:(lra) ltac:(lra)) as H2.
  replace (- 2) with (2 * - 1) by lra. exact H2.
Qed.

(** *** The accumulation loop *)

Section Horton_loop.

Import Horton.

Variables time infiltration_rate : list R.
Hypothesis rate_length : length infiltration_rate = length time.

(** Inside the arrays the loop body raises nothing and writes one cell. *)
Lemma body_in_range (cum : list R) (i : nat) :
  (1 <= i < length time)%nat -> length cum = length time ->
  exists ti tp cp ri : R,
    time !! i = Some ti /\
    time !! (i - 1)%nat = Some tp /\
    cum !! (i - 1)%nat = Some cp /\
    infiltration_rate !! i = Some ri /\
    body time infiltration_rate cum i = Some (<[i := cp + ri * (ti - tp)]> cum).
Proof.
  intros [H1 Hi] Hc.
  destruct (lookup_lt_is_Some_2 time i Hi) as [ti Eti].
  destruct (lookup_lt_is_Some_2 time (i - 1)%nat ltac:(lia)) as [tp Etp].
  destruct (lookup_lt_is_Some_2 cum (i - 1)%nat ltac:(lia)) as [cp Ecp].
  destruct (lookup_lt_is_Some_2 infiltration_rate i ltac:(lia)) as [ri Eri].
  exists ti, tp, cp, ri. repeat (split; [assumption |]).
  unfold body. rewrite Eti, Etp, Ecp, Eri. cbn [mbind option_bind].
  rewrite decide_True by lia. reflexivity.
Qed.

(** Running the loop over the indices [j, j+1, ..., j+m-1]: the cells
    below [j] and from [j+m] on are left as they were, and each cell in
    between holds its left neighbour plus the rate times the local step. *)
Lemma for_range_seq (m : nat) :
  forall (j : nat) (cum : list R),
    (1 <= j)%nat -> (j + m <= length time)%nat -> length cum = length time ->
    exists cum' : list R,
      for_range (body time infiltration_rate) (seq j m) cum = Some cum' /\
      length cum' = length time /\
      (forall i : nat, (i < j)%nat -> cum' !! i = cum !! i) /\
      (forall i : nat, (j + m <= i)%nat -> cum' !! i = cum !! i) /\
      (forall i : nat, (j <= i < j + m)%nat ->
         exists ti tp cp ri : R,
           time !! i = Some ti /\
           time !! (i - 1)%nat = Some tp /\
           cum' !! (i - 1)%nat = Some cp /\
           infiltration_rate !! i = Some ri /\
           cum' !! i = Some (cp + ri * (ti - tp))).
Proof.
  induction m as [| m IH]; intros j cum Hj Hjm Hc.
  - exists cum. cbn. repeat split; try assumption. intros i Hi. lia.
  - destruct (body_in_range cum j ltac:(lia) Hc)
      as (ti & tp & cp & ri & Eti & Etp & Ecp & Eri & Ebody).
    set (cum1 := <[j := cp + ri * (ti - tp)]> cum) in *.
    assert (Hc1 : length cum1 = length time).
    { unfold cum1. rewrite length_insert. exact Hc. }
    destruct (IH (Datatypes.S j) cum1 ltac:(lia) ltac:(lia) Hc1)
      as (cum' & Erun & Hlen' & Hbelow & Habove & Hstep).
    exists cum'. cbn [seq for_range]. rewrite Ebody. cbn [mbind option_bind].
    split; [exact Erun |]. split; [exact Hlen' |]. split; [| split].
    + intros i Hi. rewrite Hbelow by lia. unfold cum1.
      apply list_lookup_insert_ne. lia.
    + intros i Hi. rewrite Habove by lia. unfold cum1.
      apply list_lookup_insert_ne. lia.
    + intros i Hi. destruct (decide (i = j)) as [-> | Hne].
      * exists ti, tp, cp, ri. repeat (split; [assumption |]). split.
        -- rewrite Hbelow by lia. unfold cum1.
           rewrite list_lookup_insert_ne by lia. exact Ecp.
        -- split; [exact Eri |]. rewrite Hbelow by lia. unfold cum1.
           apply list_lookup_insert_eq. lia.
      * apply Hstep. lia.
Qed.

End Horton_loop.

(** *** The branch as a whole *)

Lemma rate_lookup (f0 fc k : R) (time : list R) (i : nat) :
  Horton.rate f0 fc k time !! i
  = (fun t => fc + (f0 - fc) * exp (- k * t)) <$> time !! i.
Proof. unfold Horton.rate. apply list_lookup_fmap. Qed.

Lemma rate_length (f0 fc k : R) (time : list R) :
  length (Horton.rate f0 fc k time) = length time.
Proof. unfold Horton.rate. apply length_fmap. Qed.

(** The loop never leaves the arrays: the branch returns both series, the
    cumulative one starting at 0 and obeying the recurrence of line 200. *)
Lemma horton_runs (f0 fc k : R) (time : list R) :
  exists cum : list R,
    Horton.horton f0 fc k time = Some (Horton.rate f0 fc k time, cum) /\
    length cum = length time /\
    (time <> [] -> cum !! 0%nat = Some 0) /\
    (forall (i : nat) (ti tp : R),
        (1 <= i)%nat -> time !! i = Some ti -> time !! (i - 1)%nat = Some tp ->
        exists cp : R,
          cum !! (i - 1)%nat = Some cp /\
          cum !! i
          = Some (cp + (fc + (f0 - fc) * exp (- k * ti)) * (ti - tp))).
Proof.
  unfold Horton.horton.
  destruct time as [| t0 rest] eqn:Etime.
  - exists []. cbn. repeat split; try congruence. intros i ti tp _ Hti. discriminate.
  - rewrite <- Etime.
    assert (Hn : (1 <= length time)%nat) by (rewrite Etime; cbn; lia).
    destruct (for_range_seq time (Horton.rate f0 fc k time)
                (rate_length f0 fc k time) (length time - 1) 1
                (replicate (length time) 0)
                ltac:(lia) ltac:(lia) (length_replicate _ _))
      as (cum & Erun & Hlen & Hbelow & _ & Hstep).
    exists cum. rewrite Erun. cbn [mbind option_bind].
    split; [reflexivity |]. split; [exact Hlen |]. split.
    + intros _. rewrite Hbelow by lia. apply lookup_replicate_2. lia.
    + intros i ti tp Hi Hti Htp.
      pose proof (lookup_lt_Some _ _ _ Hti) as Hlt.
      destruct (Hstep i ltac:(lia))
        as (ti' & tp' & cp & ri & Eti & Etp & Ecp & Eri & Ecum).
      rewrite Hti in Eti. injection Eti as <-.
      rewrite Htp in Etp. injection Etp as <-.
      rewrite rate_lookup, Hti in Eri. injection Eri as <-.
      exists cp. split; assumption.
Qed.

(** Between its two limits the rate is positive from time 0 on, whichever
    of [f0] and [fc] is the larger. *)
Lemma horton_rate_pos (f0 fc k t : R) :
  0 < f0 -> 0 < fc -> 0 < k -> 0 <= t ->
  0 < fc + (f0 - fc) * exp (- k * t).
Proof.
  intros Hf0 Hfc Hk Ht.
  pose proof (exp_pos (- k * t)) as He0.
  assert (He1 : exp (- k * t) <= 1).
  { rewrite <- exp_0. destruct (Req_dec_T t 0) as [-> | Hnz].
    - rewrite Rmult_0_r. lra.
    - apply Rlt_le, exp_increasing. nra. }
  nra.
Qed.

Lemma horton_cumulative_non_decreasing (f0 fc k : R) (time cum : list R) :
  0 < f0 -> 0 < fc -> 0 < k -> Forall (Rle 0) time -> increasing time ->
  Horton.horton f0 fc k time = Some (Horton.rate f0 fc k time, cum) ->
  non_decreasing cum.
Proof.
  intros Hf0 Hfc Hk Hpos Hinc Hrun i a b Ha Hb.
  destruct (horton_runs f0 fc k time) as (cum' & Erun & Hlen & _ & Hstep).
  rewrite Hrun in Erun. injection Erun as <-.
  pose proof (lookup_lt_Some _ _ _ Hb) as Hlt. rewrite Hlen in Hlt.
  destruct (lookup_lt_is_Some_2 time (Datatypes.S i) Hlt) as [ti Eti].
  destruct (lookup_lt_is_Some_2 time i ltac:(lia)) as [tp Etp].
  destruct (Hstep (Datatypes.S i) ti tp ltac:(lia) Eti
              ltac:(replace (Datatypes.S i - 1)%nat with i by lia; exact Etp))
    as (cp & Ecp & Ecum).
  replace (Datatypes.S i - 1)%nat with i in Ecp by lia.
  rewrite Ha in Ecp. injection Ecp as <-.
  rewrite Hb in Ecum. injection Ecum as ->.
  pose proof (Hinc i tp ti Etp Eti) as Hdt.
  pose proof (proj1 (Forall_lookup _ _) Hpos _ _ Eti) as Hti.
  pose proof (horton_rate_pos f0 fc k ti Hf0 Hfc Hk Hti) as Hr.
  nra.
Qed.

(** *** Horton: the claims *)

(** C2.  For every [f0], [fc], [k] (positive or not) and every time array
    (increasing or not) the Horton branch returns both series, aligned
    with the array: [rate[i] = fc + (f0 - fc) * e^(-k * t[i])], which is
    [f0] where [t[i] = 0]; [cumulative[0] = 0] and, for [i >= 1],
    [cumulative[i] = cumulative[i-1] + rate[i] * (t[i] - t[i-1])].  With
    [f0 = 10], [fc = 1], [k = 1] over [0, 1, 2] the rate is within 0.01 of
    [10, 4.31, 2.22] and the cumulative within 0.01 of [0, 4.31, 6.53]. *)
Theorem horton_series :
  (forall (f0 fc k : R) (time : list R),
      exists rate cumulative : list R,
        Horton.horton f0 fc k time = Some (rate, cumulative) /\
        length rate = length time /\
        length cumulative = length time /\
        (forall (i : nat) (t : R),
            time !! i = Some t ->
            rate !! i = Some (fc + (f0 - fc) * exp (- k * t))) /\
        (forall i : nat, time !! i = Some 0 -> rate !! i = Some f0) /\
        (time <> [] -> cumulative !! 0%nat = Some 0) /\
        (forall i : nat,
            (1 <= i < length time)%nat ->
            exists cp ri ti tp : R,
              cumulative !! (i - 1)%nat = Some cp /\
              rate !! i = Some ri /\
              time !! i = Some ti /\
              time !! (i - 1)%nat = Some tp /\
              cumulative !! i = Some (cp + ri * (ti - tp)))) /\
  (exists r0 r1 r2 c0 c1 c2 : R,
      Horton.horton 10 1 1 [0; 1; 2] = Some ([r0; r1; r2], [c0; c1; c2]) /\
      Rabs (r0 - 10) <= 1 / 100 /\
      Rabs (r1 - 431 / 100) <= 1 / 100 /\
      Rabs (r2 - 222 / 100) <= 1 / 100 /\
      Rabs (c0 - 0) <= 1 / 100 /\
      Rabs (c1 - 431 / 100) <= 1 / 100 /\
      Rabs (c2 - 653 / 100) <= 1 / 100).
Proof.
  split.
  - intros f0 fc k time.
    destruct (horton_runs f0 fc k time) as (cum & Erun & Hlen & Hzero & Hstep).
    exists (Horton.rate f0 fc k time), cum.
    split; [exact Erun |]. split; [apply rate_length |]. split; [exact Hlen |].
    split; [| split; [| split; [exact Hzero |]]].
    + intros i t Ht. rewrite rate_lookup, Ht. reflexivity.
    + intros i Ht. rewrite rate_lookup, Ht. cbn [fmap option_fmap option_map].
      rewrite Rmult_0_r, exp_0. f_equal. lra.
    + intros i [H1 Hi].
      destruct (lookup_lt_is_Some_2 time i Hi) as [ti Eti].
      destruct (lookup_lt_is_Some_2 time (i - 1)%nat ltac:(lia)) as [tp Etp].
      destruct (Hstep i ti tp H1 Eti Etp) as (cp & Ecp & Ecum).
      exists cp, (fc + (f0 - fc) * exp (- k * ti)), ti, tp.
      rewrite rate_lookup, Eti. repeat split; assumption.
  - destruct (horton_runs 10 1 1 [0; 1; 2]) as (cum & Erun & Hlen & Hzero & Hstep).
    destruct cum as [| c0 [| c1 [| c2 [| ? ?]]]]; try discriminate Hlen.
    specialize (Hzero ltac:(discriminate)). injection Hzero as ->.
    destruct (Hstep 1%nat 1 0 ltac:(lia) eq_refl eq_refl) as (cp1 & E0 & E1).
    injection E0 as <-. injection E1 as ->.
    destruct (Hstep 2%nat 2 1 ltac:(lia) eq_refl eq_refl) as (cp2 & E1 & E2).
    injection E1 as <-. injection E2 as ->.
    do 6 eexists. split; [exact Erun |].
    replace (- (1) * 1) with (- 1) by lra.
    replace (- (1) * 2) with (- 2) by lra.
    replace (- (1) * 0) with 0 by lra. rewrite exp_0.
    pose proof exp_neg1_bounds as [L1 U1]. pose proof exp_neg2_bounds as [L2 U2].
    repeat split; apply Rabs_le; lra.
Qed.

Lemma increasing_0_1_2 : increasing [0; 1; 2].
Proof.
  intros i a b Ha Hb.
  destruct i as [| [| i]]; cbn in Ha, Hb.
  - injection Ha as <-. injection Hb as <-. lra.
  - injection Ha as <-. injection Hb as <-. lra.
  - discriminate.
Qed.

Lemma nonneg_0_1_2 : Forall (Rle 0) [0; 1; 2].
Proof. repeat constructor; lra. Qed.

(** C6.  For [f0 > 0], [fc > 0], [k > 0] and a strictly increasing time
    array (of elapsed hours, so non-negative), the Horton branch returns a
    cumulative series with [cumulative[0] = 0] and [cumulative[i] >=
    cumulative[i-1]] for every [i >= 1]; nothing is assumed on the order of
    [f0] and [fc], so the case [f0 < fc] is included. *)
Theorem horton_cumulative_monotone (f0 fc k : R) (time : list R) :
  0 < f0 -> 0 < fc -> 0 < k -> Forall (Rle 0) time -> increasing time ->
  exists rate cumulative : list R,
    Horton.horton f0 fc k time = Some (rate, cumulative) /\
    (time <> [] -> cumulative !! 0%nat = Some 0) /\
    (forall (i : nat) (a b : R),
        (1 <= i)%nat ->
        cumulative !! (i - 1)%nat = Some a -> cumulative !! i = Some b ->
        a <= b) /\
    non_decreasing cumulative.
Proof.
  intros Hf0 Hfc Hk Hpos Hinc.
  destruct (horton_runs f0 fc k time) as (cum & Erun & _ & Hzero & _).
  pose proof (horton_cumulative_non_decreasing f0 fc k time cum
                Hf0 Hfc Hk Hpos Hinc Erun) as Hmono.
  exists (Horton.rate f0 fc k time), cum.
  split; [exact Erun |]. split; [exact Hzero |]. split; [| exact Hmono].
  intros i a b Hi Ha Hb. apply (Hmono (i - 1)%nat a b Ha).
  replace (Datatypes.S (i - 1)) with i by lia. exact Hb.
Qed.

(** C6, witness: the script's own run with a rate that grows, [f0 = 1]
    below [fc = 5]. *)
Lemma horton_cumulative_monotone_witness :
  exists rate cumulative : list R,
    Horton.branch 1 5 1 = Some (rate, cumulative) /\
    non_decreasing cumulative.
Proof.
  destruct (horton_cumulative_monotone 1 5 1 Horton.time)
    as (rate & cumulative & Erun & _ & _ & Hmono).
  - lra.
  - lra.
  - lra.
  - apply linspace_nonneg; lra.
  - apply linspace_increasing; lra.
  - exists rate, cumulative. split; [exact Erun | exact Hmono].
Defined.

(** ** All three series *)

(** C8.  With positive parameters the cumulative series of each model is
    non-decreasing along a strictly increasing (non-negative) time array:
    Green-Ampt for any [theta_i], [theta_s], its cumulative being [Ks * t];
    Philip, whose cumulative values are all finite; Horton.  The
    Green-Ampt rate can be negative: with [theta_i = 0.5] above
    [theta_s = 0.3], [Ks = 1] and [psi = 20] it is negative at the first
    point of the script's own time array. *)
Theorem cumulative_non_decreasing :
  (forall (Ks psi theta_i theta_s : R) (time : list R),
      0 < Ks -> 0 < psi -> increasing time ->
      non_decreasing
        (snd (GreenAmpt.green_ampt Ks psi theta_i theta_s time))) /\
  (forall (S K : R) (time : list R),
      0 < S -> 0 < K -> Forall (Rle 0) time -> increasing time ->
      exists c : list R,
        snd (Philip.philip S K time) = Fin <$> c /\ non_decreasing c) /\
  (forall (f0 fc k : R) (time : list R),
      0 < f0 -> 0 < fc -> 0 < k -> Forall (Rle 0) time -> increasing time ->
      exists rate cumulative : list R,
        Horton.horton f0 fc k time = Some (rate, cumulative) /\
        non_decreasing cumulative) /\
  (exists r : R,
      fst (GreenAmpt.branch 1 20 (5 / 10) (3 / 10)) !! 0%nat = Some (Fin r) /\
      r < 0).
Proof.
  split; [| split; [| split]].
  - intros Ks psi theta_i theta_s time HK _ Hinc.
    apply green_ampt_cumulative_non_decreasing; assumption.
  - intros S K time HS HK Hpos Hinc.
    apply philip_cumulative_non_decreasing; assumption.
  - intros f0 fc k time Hf0 Hfc Hk Hpos Hinc.
    destruct (horton_runs f0 fc k time) as (cum & Erun & _).
    exists (Horton.rate f0 fc k time), cum. split; [exact Erun |].
    apply (horton_cumulative_non_decreasing f0 fc k time); assumption.
  - unfold GreenAmpt.branch.
    rewrite (proj1 (green_ampt_lookup 1 20 (5 / 10) (3 / 10) _ _)).
    unfold GreenAmpt.time, linspace. rewrite list_lookup_fmap.
    rewrite lookup_seq_lt by lia.
    cbn [fmap option_fmap option_map Nat.add INR].
    replace (1 / 10 + 0 * ((24 - 1 / 10) / INR (100 - 1))) with (1 / 10) by lra.
    rewrite np_div_Fin by lra. cbn [np_add np_mul].
    eexists. split; [reflexivity |]. lra.
Qed.

(** C8, witness: every model over the hours 0, 1, 2 at its slider
    defaults. *)
Lemma cumulative_non_decreasing_witness :
  non_decreasing (snd (GreenAmpt.green_ampt 1 20 (2 / 10) (5 / 10) [0; 1; 2])) /\
  (exists c : list R,
      snd (Philip.philip 1 1 [0; 1; 2]) = Fin <$> c /\ non_decreasing c) /\
  (exists rate cumulative : list R,
      Horton.horton 10 1 1 [0; 1; 2] = Some (rate, cumulative) /\
      non_decreasing cumulative).
Proof.
  destruct cumulative_non_decreasing as (Hga & Hphilip & Hhorton & _).
  split; [| split].
  - apply Hga; [lra | lra | exact increasing_0_1_2].
  - apply Hphilip; [lra | lra | exact nonneg_0_1_2 | exact increasing_0_1_2].
  - apply Hhorton; [lra | lra | lra | exact nonneg_0_1_2 | exact increasing_0_1_2].
Defined.

(** * Further properties of the branches *)

(** ** SCS Curve Number: the slider range and monotonicity *)

Section SCS_more.

Import SCS.

(** Comparing two quotients with positive divisors. *)
Lemma Rdiv_le_cross (a b c d : R) :
  0 < b -> 0 < d -> a * d <= c * b -> a / b <= c / d.
Proof.
  intros Hb Hd H.
  assert (Hdiff : c / d - a / b = (c * b - a * d) / (d * b)) by (field; lra).
  assert (0 <= (c * b - a * d) / (d * b)).
  { apply Rmult_le_pos; [lra |]. apply Rlt_le, Rinv_0_lt_compat. nra. }
  lra.
Qed.

(** The runoff curve [x^2 / (x + S)] lies between 0 and [x]. *)
Lemma runoff_curve_bounds (x S : R) :
  0 < x -> 0 <= S -> 0 <= x ^ 2 / (x + S) <= x.
Proof.
  intros Hx HS. split.
  - apply Rmult_le_pos; [nra |]. apply Rlt_le, Rinv_0_lt_compat. lra.
  - replace x with (x / 1) at 3 by field.
    apply Rdiv_le_cross; [lra | lra | nra].
Qed.

(** Both the runoff curve and what it leaves, [x * S / (x + S)], grow
    with [x]. *)
Lemma runoff_curve_mono (x1 x2 S : R) :
  0 < x1 -> x1 <= x2 -> 0 <= S ->
  x1 ^ 2 / (x1 + S) <= x2 ^ 2 / (x2 + S) /\
  x1 * S / (x1 + S) <= x2 * S / (x2 + S).
Proof.
  intros H1 H12 HS.
  assert (Ha : 0 <= x1 * x2 * (x2 - x1)).
  { apply Rmult_le_pos; [| lra]. apply Rmult_le_pos; lra. }
  assert (Hb : 0 <= S * (x2 - x1) * (x2 + x1)).
  { apply Rmult_le_pos; [| lra]. apply Rmult_le_pos; lra. }
  assert (Hc : 0 <= S * S * (x2 - x1)).
  { apply Rmult_le_pos; [| lra]. apply Rmult_le_pos; lra. }
  split; apply Rdiv_le_cross; lra.
Qed.

Lemma divisor_pos (P CN Ia_ratio : R) :
  0 < P -> 0 < CN <= 100 -> Ia_ratio <= 1 ->
  0 < P - Ia_ratio * (2540 / CN - 254 / 10) + (2540 / CN - 254 / 10).
Proof.
  intros HP HCN Hr. pose proof (retention_nonneg CN HCN). nra.
Qed.

(** What is shown when the branch runs to its end. *)
Lemma runoff_eval (P CN Ia_ratio : R) :
  let S := 2540 / CN - 254 / 10 in
  let Ia := Ia_ratio * S in
  let Q := if Rgt_dec P Ia then (P - Ia) ^ 2 / (P - Ia + S) else 0 in
  CN <> 0 -> P - Ia + S <> 0 ->
  runoff P CN Ia_ratio = Some (mkRunoffResult S Ia (P - Q) Q).
Proof.
  intros S Ia Q HCN Hden. unfold runoff.
  rewrite (scs_eval P CN Ia_ratio HCN Hden). reflexivity.
Qed.

(** X3.  For every setting of the three sliders the branch shows a result
    (no [ZeroDivisionError]), with [0 <= S <= 60], [0 <= Ia <= S],
    [Q >= 0] and [infiltration <= P]. *)
Theorem scs_sliders_never_raise (P CN Ia_ratio : R) :
  scs_sliders P CN Ia_ratio ->
  exists r : RunoffResult,
    runoff P CN Ia_ratio = Some r /\
    0 <= shown_S r <= 60 /\
    0 <= shown_Ia r <= shown_S r /\
    0 <= shown_Q r /\
    shown_infiltration r <= P.
Proof.
  intros ([HP0 HP1] & (n & -> & Hn0 & Hn1) & [Hr0 Hr1]).
  assert (HCN : 30 <= IZR n <= 100) by (split; apply IZR_le; lia).
  pose proof (retention_nonneg (IZR n) ltac:(lra)) as HS.
  pose proof (divisor_pos P (IZR n) Ia_ratio ltac:(lra) ltac:(lra) ltac:(lra))
    as Hden.
  rewrite (runoff_eval P (IZR n) Ia_ratio ltac:(lra) ltac:(lra)). cbv zeta.
  eexists. split; [reflexivity |].
  cbn [shown_S shown_Ia shown_Q shown_infiltration].
  assert (HSmax : 2540 / IZR n - 254 / 10 <= 60).
  { assert (2540 / IZR n <= 2540 / 30); [| lra].
    unfold Rdiv. apply Rmult_le_compat_l; [lra |].
    apply Rinv_le_contravar; lra. }
  set (S := 2540 / IZR n - 254 / 10) in *. set (Ia := Ia_ratio * S) in *.
  assert (HIa : 0 <= Ia <= S) by (unfold Ia; nra).
  split; [lra |]. split; [exact HIa |].
  destruct (Rgt_dec P Ia) as [Hgt | Hngt].
  - pose proof (runoff_curve_bounds (P - Ia) S ltac:(lra) HS) as [HQ0 HQ1].
    split; lra.
  - split; lra.
Qed.

Lemma scs_slider_defaults : scs_sliders 5 70 (2 / 10).
Proof.
  unfold scs_sliders, slider. split; [lra |]. split; [| lra].
  exists 70%Z. split; [reflexivity | lia].
Qed.

(** X3, witness: the slider defaults. *)
Lemma scs_sliders_never_raise_witness :
  exists r : RunoffResult, runoff 5 70 (2 / 10) = Some r.
Proof.
  destruct (scs_sliders_never_raise 5 70 (2 / 10) scs_slider_defaults)
    as (r & Hr & _).
  exists r. exact Hr.
Defined.

(** X5.  With [CN] in (0,100] and [0 <= Ia_ratio <= 1] fixed, more
    rainfall never gives less runoff: for [0 < P1 <= P2] both results are
    shown and [Q1 <= Q2]. *)
Theorem scs_monotone_in_rainfall (P1 P2 CN Ia_ratio : R) :
  0 < P1 -> P1 <= P2 -> 0 < CN <= 100 -> 0 <= Ia_ratio <= 1 ->
  exists r1 r2 : RunoffResult,
    runoff P1 CN Ia_ratio = Some r1 /\
    runoff P2 CN Ia_ratio = Some r2 /\
    shown_Q r1 <= shown_Q r2.
Proof.
  intros HP1 HP12 HCN Hr.
  pose proof (retention_nonneg CN HCN) as HS.
  pose proof (divisor_pos P1 CN Ia_ratio HP1 HCN ltac:(lra)) as Hd1.
  pose proof (divisor_pos P2 CN Ia_ratio ltac:(lra) HCN ltac:(lra)) as Hd2.
  rewrite (runoff_eval P1 CN Ia_ratio ltac:(lra) ltac:(lra)).
  rewrite (runoff_eval P2 CN Ia_ratio ltac:(lra) ltac:(lra)). cbv zeta.
  do 2 eexists. split; [reflexivity |]. split; [reflexivity |].
  cbn [shown_Q].
  set (S := 2540 / CN - 254 / 10) in *. set (Ia := Ia_ratio * S) in *.
  destruct (Rgt_dec P1 Ia) as [H1 | H1]; destruct (Rgt_dec P2 Ia) as [H2 | H2];
    try lra.
  - apply (runoff_curve_mono (P1 - Ia) (P2 - Ia) S); lra.
  - apply (runoff_curve_bounds (P2 - Ia) S); lra.
Qed.

(** X5, witness: below and above the initial abstraction on [CN = 70]. *)
Lemma scs_monotone_in_rainfall_witness :
  exists r1 r2 : RunoffResult,
    runoff 1 70 (2 / 10) = Some r1 /\
    runoff 5 70 (2 / 10) = Some r2 /\
    shown_Q r1 <= shown_Q r2.
Proof.
  destruct (scs_monotone_in_rainfall 1 5 70 (2 / 10))
    as (r1 & r2 & E1 & E2 & HQ).
  - lra.
  - lra.
  - lra.
  - lra.
  - exists r1, r2. repeat split; assumption.
Defined.

(** X6.  With [P > 0] and [0 <= Ia_ratio <= 1] fixed, a higher curve
    number never gives less runoff: for [0 < CN1 <= CN2 <= 100] both
    results are shown, the retention [S] does not grow, [Q1 <= Q2] and
    [infiltration2 <= infiltration1]. *)
Theorem scs_monotone_in_curve_number (P CN1 CN2 Ia_ratio : R) :
  0 < P -> 0 < CN1 -> CN1 <= CN2 -> CN2 <= 100 -> 0 <= Ia_ratio <= 1 ->
  exists r1 r2 : RunoffResult,
    runoff P CN1 Ia_ratio = Some r1 /\
    runoff P CN2 Ia_ratio = Some r2 /\
    shown_S r2 <= shown_S r1 /\
    shown_Q r1 <= shown_Q r2 /\
    shown_infiltration r2 <= shown_infiltration r1.
Proof.
  intros HP HCN1 HCN12 HCN2 Hr.
  pose proof (retention_nonneg CN1 ltac:(lra)) as HS1.
  pose proof (retention_nonneg CN2 ltac:(lra)) as HS2.
  pose proof (divisor_pos P CN1 Ia_ratio HP ltac:(lra) ltac:(lra)) as Hd1.
  pose proof (divisor_pos P CN2 Ia_ratio HP ltac:(lra) ltac:(lra)) as Hd2.
  assert (HS12 : 2540 / CN2 - 254 / 10 <= 2540 / CN1 - 254 / 10).
  { assert (2540 / CN2 <= 2540 / CN1); [| lra].
    unfold Rdiv. apply Rmult_le_compat_l; [lra |].
    apply Rinv_le_contravar; lra. }
  rewrite (runoff_eval P CN1 Ia_ratio ltac:(lra) ltac:(lra)).
  rewrite (runoff_eval P CN2 Ia_ratio ltac:(lra) ltac:(lra)). cbv zeta.
  do 2 eexists. split; [reflexivity |]. split; [reflexivity |].
  cbn [shown_S shown_Q shown_infiltration].
  set (S1 := 2540 / CN1 - 254 / 10) in *. set (S2 := 2540 / CN2 - 254 / 10) in *.
  assert (HIa : Ia_ratio * S2 <= Ia_ratio * S1) by nra.
  assert (HQ : (if Rgt_dec P (Ia_ratio * S1)
                then (P - Ia_ratio * S1) ^ 2 / (P - Ia_ratio * S1 + S1) else 0)
               <= (if Rgt_dec P (Ia_ratio * S2)
                   then (P - Ia_ratio * S2) ^ 2 / (P - Ia_ratio * S2 + S2)
                   else 0)).
  { destruct (Rgt_dec P (Ia_ratio * S1)) as [H1 | H1];
      destruct (Rgt_dec P (Ia_ratio * S2)) as [H2 | H2]; try lra.
    - apply Rdiv_le_cross; [lra | lra |].
      apply Rmult_le_compat; [nra | lra | | nra].
      rewrite <- !Rsqr_pow2. apply Rsqr_incr_1; lra.
    - apply (runoff_curve_bounds (P - Ia_ratio * S2) S2); lra. }
  split; [exact HS12 |]. split; [exact HQ | lra].
Qed.

(** X6, witness: the two ends of the curve number slider. *)
Lemma scs_monotone_in_curve_number_witness :
  exists r1 r2 : RunoffResult,
    runoff 5 30 (2 / 10) = Some r1 /\
    runoff 5 100 (2 / 10) = Some r2 /\
    shown_Q r1 <= shown_Q r2.
Proof.
  destruct (scs_monotone_in_curve_number 5 30 100 (2 / 10))
    as (r1 & r2 & E1 & E2 & _ & HQ & _).
  - lra.
  - lra.
  - lra.
  - lra.
  - lra.
  - exists r1, r2. repeat split; assumption.
Defined.

End SCS_more.

(** ** Horton: the rate between its limits *)

(** From time 0 on the rate stays between its two limits. *)
Lemma horton_rate_bounds (f0 fc k t : R) :
  0 < k -> 0 <= t ->
  Rmin f0 fc <= fc + (f0 - fc) * exp (- k * t) <= Rmax f0 fc.
Proof.
  intros Hk Ht.
  pose proof (exp_pos (- k * t)) as He0.
  assert (He1 : exp (- k * t) <= 1).
  { rewrite <- exp_0. destruct (Req_dec_T t 0) as [-> | Hnz].
    - rewrite Rmult_0_r. lra.
    - apply Rlt_le, exp_increasing. nra. }
  pose proof (Rmin_l f0 fc). pose proof (Rmin_r f0 fc).
  pose proof (Rmax_l f0 fc). pose proof (Rmax_r f0 fc).
  split; nra.
Qed.

(** X8.  For [k > 0] the rate of line 195 moves towards [fc] and never
    crosses it: at two points [t1 < t2] of the time array,
    [fc <= rate(t2) <= rate(t1)] when [fc <= f0] and
    [rate(t1) <= rate(t2) <= fc] when [f0 <= fc]. *)
Theorem horton_rate_towards_fc
    (f0 fc k : R) (time : list R) (i j : nat) (t1 t2 : R) :
  0 < k -> time !! i = Some t1 -> time !! j = Some t2 -> t1 < t2 ->
  exists r1 r2 : R,
    Horton.rate f0 fc k time !! i = Some r1 /\
    Horton.rate f0 fc k time !! j = Some r2 /\
    (fc <= f0 -> fc <= r2 /\ r2 <= r1) /\
    (f0 <= fc -> r1 <= r2 /\ r2 <= fc).
Proof.
  intros Hk Hi Hj H12.
  rewrite !rate_lookup, Hi, Hj. cbn [fmap option_fmap option_map].
  do 2 eexists. split; [reflexivity |]. split; [reflexivity |].
  pose proof (exp_pos (- k * t2)) as He2.
  assert (He21 : exp (- k * t2) < exp (- k * t1))
    by (apply exp_increasing; nra).
  split; intros Hord; split; nra.
Qed.

(** X8, witness: a decaying rate over the hours 0, 1, 2. *)
Lemma horton_rate_towards_fc_witness :
  exists r1 r2 : R,
    Horton.rate 10 1 1 [0; 1; 2] !! 0%nat = Some r1 /\
    Horton.rate 10 1 1 [0; 1; 2] !! 2%nat = Some r2 /\
    1 <= r2 /\ r2 <= r1.
Proof.
  destruct (horton_rate_towards_fc 10 1 1 [0; 1; 2] 0 2 0 2)
    as (r1 & r2 & E1 & E2 & Hdecay & _).
  - lra.
  - reflexivity.
  - reflexivity.
  - lra.
  - exists r1, r2. split; [exact E1 |]. split; [exact E2 |]. apply Hdecay. lra.
Defined.

(** Along the array the accumulated depth stays between the two limit
    rates times the elapsed time. *)
Lemma horton_cumulative_between (f0 fc k : R) (time cum : list R) (t0 : R) :
  0 < k -> Forall (Rle 0) time -> increasing time ->
  Horton.horton f0 fc k time = Some (Horton.rate f0 fc k time, cum) ->
  time !! 0%nat = Some t0 ->
  forall (i : nat) (ti : R),
    time !! i = Some ti ->
    t0 <= ti /\
    exists c : R,
      cum !! i = Some c /\
      Rmin f0 fc * (ti - t0) <= c <= Rmax f0 fc * (ti - t0).
Proof.
  intros Hk Hpos Hinc Hrun H0.
  destruct (horton_runs f0 fc k time) as (cum' & Erun & Hlen & Hzero & Hstep).
  rewrite Hrun in Erun. injection Erun as <-.
  induction i as [| i IH]; intros ti Hti.
  - rewrite H0 in Hti. injection Hti as <-. split; [lra |].
    exists 0. split; [| lra]. apply Hzero. intros ->. discriminate.
  - pose proof (lookup_lt_Some _ _ _ Hti) as Hlt.
    destruct (lookup_lt_is_Some_2 time i ltac:(lia)) as [tp Etp].
    destruct (IH tp Etp) as (Htp & cp & Ecp & Hcp).
    pose proof (Hinc i tp ti Etp Hti) as Hdt.
    destruct (Hstep (Datatypes.S i) ti tp ltac:(lia) Hti
                ltac:(replace (Datatypes.S i - 1)%nat with i by lia; exact Etp))
      as (cp' & Ecp' & Ecum).
    replace (Datatypes.S i - 1)%nat with i in Ecp' by lia.
    rewrite Ecp in Ecp'. injection Ecp' as <-.
    split; [lra |]. eexists. split; [exact Ecum |].
    pose proof (proj1 (Forall_lookup _ _) Hpos _ _ Hti) as Hti0.
    pose proof (horton_rate_bounds f0 fc k ti Hk Hti0) as [Hlo Hhi].
    split; nra.
Qed.

Lemma linspace_lookup_lt (start stop : R) (num i : nat) :
  (i < num)%nat ->
  linspace start stop num !! i
  = Some (start + INR i * ((stop - start) / INR (num - 1))).
Proof.
  intros Hi. unfold linspace. rewrite list_lookup_fmap, lookup_seq_lt by exact Hi.
  reflexivity.
Qed.

(** The script's Horton array runs from hour 0 to hour 24. *)
Lemma horton_time_ends :
  Horton.time !! 0%nat = Some 0 /\ Horton.time !! 99%nat = Some 24.
Proof.
  unfold Horton.time. rewrite !linspace_lookup_lt by lia.
  replace (100 - 1)%nat with 99%nat by lia.
  assert (Hn : INR 99 <> 0) by (apply not_0_INR; lia).
  split; f_equal.
  - cbn [INR]. lra.
  - field. exact Hn.
Qed.

(** ** Horton: the loop against the exact integral *)

(** [fc * u + (f0 - fc) * (1 - e^(-k u)) / k] is an antiderivative of the
    rate of line 195. *)
Lemma horton_antiderivative (f0 fc k t : R) :
  k <> 0 ->
  derivable_pt_lim
    (fun u => fc * u + (f0 - fc) * (1 - exp (- k * u)) / k) t
    (fc + (f0 - fc) * exp (- k * t)).
Proof.
  intros Hk.
  pose proof (derivable_pt_lim_scal id (- k) t 1 (derivable_pt_lim_id t)) as Hlin.
  pose proof (derivable_pt_lim_comp (mult_real_fct (- k) id) exp t _ _ Hlin
                (derivable_pt_lim_exp _)) as Hexp.
  pose proof (derivable_pt_lim_minus (fct_cte 1) _ t _ _
                (derivable_pt_lim_const 1 t) Hexp) as Hone.
  pose proof (derivable_pt_lim_scal _ ((f0 - fc) / k) t _ Hone) as Hsecond.
  pose proof (derivable_pt_lim_scal id fc t 1 (derivable_pt_lim_id t)) as Hfirst.
  pose proof (derivable_pt_lim_plus _ _ t _ _ Hfirst Hsecond) as Hsum.
  unfold mult_real_fct, id in Hsum.
  replace (fc + (f0 - fc) * exp (- k * t))
    with (fc * 1 + (f0 - fc) / k * (0 - exp (- k * t) * (- k * 1)))
    by (field; exact Hk).
  refine (derivable_pt_lim_ext _ _ t _ _ Hsum).
  intros z. unfold plus_fct, minus_fct, fct_cte, comp, mult_real_fct, id.
  field. exact Hk.
Qed.

(** One rectangle of the loop against the exact area under the decay
    factor, from [1 + x <= e^x]. *)
Lemma exp_rectangle (k tp ti : R) :
  0 < k ->
  exp (- k * ti) * (ti - tp) <= (exp (- k * tp) - exp (- k * ti)) / k.
Proof.
  intros Hk.
  pose proof (exp_pos (- k * ti)) as Hei.
  pose proof (exp_ineq1_le (k * (ti - tp))) as Hge.
  assert (Hep : exp (- k * tp) = exp (- k * ti) * exp (k * (ti - tp))).
  { rewrite <- exp_plus. f_equal. lra. }
  assert (Hdiff : (exp (- k * tp) - exp (- k * ti)) / k
                  - exp (- k * ti) * (ti - tp)
                  = exp (- k * ti) * (exp (k * (ti - tp)) - (1 + k * (ti - tp)))
                    * / k).
  { rewrite Hep. field. lra. }
  assert (0 <= exp (- k * ti) * (exp (k * (ti - tp)) - (1 + k * (ti - tp)))
               * / k).
  { apply Rmult_le_pos; [| apply Rlt_le, Rinv_0_lt_compat, Hk].
    apply Rmult_le_pos; lra. }
  lra.
Qed.

Lemma horton_rule_step (f0 fc k : R) (time cum : list R) (t0 : R) :
  0 < k ->
  Horton.horton f0 fc k time = Some (Horton.rate f0 fc k time, cum) ->
  time !! 0%nat = Some t0 ->
  forall (i : nat) (ti : R),
    time !! i = Some ti ->
    exists c : R,
      cum !! i = Some c /\
      (fc <= f0 ->
       c <= fc * ti + (f0 - fc) * (1 - exp (- k * ti)) / k
            - (fc * t0 + (f0 - fc) * (1 - exp (- k * t0)) / k)) /\
      (f0 <= fc ->
       fc * ti + (f0 - fc) * (1 - exp (- k * ti)) / k
       - (fc * t0 + (f0 - fc) * (1 - exp (- k * t0)) / k) <= c).
Proof.
  intros Hk Hrun H0.
  destruct (horton_runs f0 fc k time) as (cum' & Erun & Hlen & Hzero & Hstep).
  rewrite Hrun in Erun. injection Erun as <-.
  induction i as [| i IH]; intros ti Hti.
  - rewrite H0 in Hti. injection Hti as <-.
    exists 0. split; [| split; intros; lra]. apply Hzero. intros ->. discriminate.
  - pose proof (lookup_lt_Some _ _ _ Hti) as Hlt.
    destruct (lookup_lt_is_Some_2 time i ltac:(lia)) as [tp Etp].
    destruct (IH tp Etp) as (cp & Ecp & Hup & Hdown).
    destruct (Hstep (Datatypes.S i) ti tp ltac:(lia) Hti
                ltac:(replace (Datatypes.S i - 1)%nat with i by lia; exact Etp))
      as (cp' & Ecp' & Ecum).
    replace (Datatypes.S i - 1)%nat with i in Ecp' by lia.
    rewrite Ecp in Ecp'. injection Ecp' as <-.
    eexists. split; [exact Ecum |].
    pose proof (exp_rectangle k tp ti Hk) as Hrect.
    assert (Hfield : forall a b : R,
               (f0 - fc) * (1 - a) / k - (f0 - fc) * (1 - b) / k
               = (f0 - fc) * ((b - a) / k)).
    { intros a b. field. lra. }
    pose proof (Hfield (exp (- k * ti)) (exp (- k * tp))) as Hgap.
    split; intros Hord.
    + specialize (Hup Hord).
      assert ((f0 - fc) * (exp (- k * ti) * (ti - tp))
              <= (f0 - fc) * ((exp (- k * tp) - exp (- k * ti)) / k))
        by (apply Rmult_le_compat_l; lra).
      lra.
    + specialize (Hdown Hord).
      assert ((fc - f0) * (exp (- k * ti) * (ti - tp))
              <= (fc - f0) * ((exp (- k * tp) - exp (- k * ti)) / k))
        by (apply Rmult_le_compat_l; lra).
      lra.
Qed.

(** X10.  For [k > 0] the loop's right-endpoint rule is one-sided against
    the exact integral of the rate, on any time array: with
    [G u = fc * u + (f0 - fc) * (1 - e^(-k u)) / k], whose derivative is
    the rate, the accumulated depth at [t[i]] is at most [G t[i] - G t[0]]
    when the rate decays ([fc < f0]) and at least that when it grows
    ([f0 < fc]). *)
Theorem horton_rule_against_integral
    (f0 fc k : R) (time : list R) (i : nat) (t0 ti : R) :
  0 < k -> time !! 0%nat = Some t0 -> time !! i = Some ti ->
  let G := fun u : R => fc * u + (f0 - fc) * (1 - exp (- k * u)) / k in
  (forall t : R, derivable_pt_lim G t (fc + (f0 - fc) * exp (- k * t))) /\
  exists (rate cumulative : list R) (c : R),
    Horton.horton f0 fc k time = Some (rate, cumulative) /\
    cumulative !! i = Some c /\
    (fc < f0 -> c <= G ti - G t0) /\
    (f0 < fc -> G ti - G t0 <= c).
Proof.
  intros Hk H0 Hi G. split.
  - intros t. apply horton_antiderivative. lra.
  - destruct (horton_runs f0 fc k time) as (cum & Erun & _).
    destruct (horton_rule_step f0 fc k time cum t0 Hk Erun H0 i ti Hi)
      as (c & Ec & Hup & Hdown).
    exists (Horton.rate f0 fc k time), cum, c.
    split; [exact Erun |]. split; [exact Ec |].
    split; intros Hord; [apply Hup | apply Hdown]; lra.
Qed.

(** X10, witness: the script's run at the slider defaults stays below the
    exact 24-hour integral. *)
Lemma horton_rule_against_integral_witness :
  exists (rate cumulative : list R) (c : R),
    Horton.branch 10 1 1 = Some (rate, cumulative) /\
    cumulative !! 99%nat = Some c /\
    c <= 1 * 24 + (10 - 1) * (1 - exp (- (1) * 24)) / 1
         - (1 * 0 + (10 - 1) * (1 - exp (- (1) * 0)) / 1).
Proof.
  destruct (horton_rule_against_integral 10 1 1 Horton.time 99 0 24)
    as (_ & rate & cumulative & c & Erun & Ec & Hup & _).
  - lra.
  - exact (proj1 horton_time_ends).
  - exact (proj2 horton_time_ends).
  - exists rate, cumulative, c. split; [exact Erun |]. split; [exact Ec |].
    apply Hup. lra.
Defined.

(** ** Horton: the loop as a running sum *)

Lemma sum_snoc (l : list R) (x : R) :
  foldr Rplus 0 (l ++ [x]) = foldr Rplus 0 l + x.
Proof.
  induction l as [| y l IH]; cbn [app foldr]; [lra | rewrite IH; lra].
Qed.

(** X11.  The sequential loop of lines 198-200 computes a running sum: for
    every index [i] of the time array, [cumulative[i]] is the sum of the
    first [i] products [rate[j+1] * (t[j+1] - t[j])], that is of the first
    [i] entries of [rate[1:] * diff(time)]. *)
Theorem horton_cumulative_running_sum
    (f0 fc k : R) (time : list R) (i : nat) :
  (i < length time)%nat ->
  exists rate cumulative : list R,
    Horton.horton f0 fc k time = Some (rate, cumulative) /\
    cumulative !! i
    = Some (foldr Rplus 0
              (take i (zip_with Rmult (drop 1 rate)
                         (zip_with Rminus (drop 1 time) time)))).
Proof.
  intros Hi.
  destruct (horton_runs f0 fc k time) as (cum & Erun & Hlen & Hzero & Hstep).
  exists (Horton.rate f0 fc k time), cum. split; [exact Erun |].
  induction i as [| i IH].
  - cbn [take foldr]. apply Hzero. intros ->. cbn in Hi. lia.
  - specialize (IH ltac:(lia)).
    destruct (lookup_lt_is_Some_2 time (Datatypes.S i) Hi) as [ti Eti].
    destruct (lookup_lt_is_Some_2 time i ltac:(lia)) as [tp Etp].
    destruct (Hstep (Datatypes.S i) ti tp ltac:(lia) Eti
                ltac:(replace (Datatypes.S i - 1)%nat with i by lia; exact Etp))
      as (cp & Ecp & Ecum).
    replace (Datatypes.S i - 1)%nat with i in Ecp by lia.
    rewrite IH in Ecp. injection Ecp as <-.
    rewrite Ecum. f_equal.
    rewrite (take_S_r _ i ((fc + (f0 - fc) * exp (- k * ti)) * (ti - tp))).
    + rewrite sum_snoc. reflexivity.
    + rewrite !lookup_zip_with, !lookup_drop.
      replace (1 + i)%nat with (Datatypes.S i) by lia.
      rewrite rate_lookup, Eti, Etp. reflexivity.
Qed.

(** X11, witness: the third point of the hours 0, 1, 2. *)
Lemma horton_cumulative_running_sum_witness :
  exists rate cumulative : list R,
    Horton.horton 10 1 1 [0; 1; 2] = Some (rate, cumulative) /\
    cumulative !! 2%nat
    = Some (foldr Rplus 0
              (take 2 (zip_with Rmult (drop 1 rate)
                         (zip_with Rminus (drop 1 [0; 1; 2]) [0; 1; 2])))).
Proof.
  refine (horton_cumulative_running_sum 10 1 1 [0; 1; 2] 2 _).
  cbn. lia.
Defined.

(** ** Philip: rate against cumulative, and the edge at 0 *)

(** X13.  In the Philip branch the rate of line 140 is the time derivative
    of the cumulative curve of line 141: at every point [t > 0] of the
    time array, [cumulative = F t] with [F u = S * sqrt u + K * u] and the
    rate is [F' t]. *)
Theorem philip_rate_is_derivative (S K : R) (time : list R) (i : nat) (t : R) :
  time !! i = Some t -> 0 < t ->
  let F := fun u : R => S * sqrt u + K * u in
  exists f : R,
    fst (Philip.philip S K time) !! i = Some (Fin f) /\
    snd (Philip.philip S K time) !! i = Some (Fin (F t)) /\
    derivable_pt_lim F t f.
Proof.
  intros Ht Hpos F.
  destruct (philip_lookup S K time i) as [Hr Hc].
  rewrite Hr, Hc, Ht. cbn [fmap option_fmap option_map].
  rewrite philip_rate_Fin by exact Hpos.
  rewrite philip_cumulative_Fin by lra.
  eexists. split; [reflexivity |]. split; [reflexivity |].
  rewrite Rpower_neg_half by exact Hpos.
  pose proof (derivable_pt_lim_scal sqrt S t _ (derivable_pt_lim_sqrt t Hpos))
    as Hsqrt.
  pose proof (derivable_pt_lim_scal id K t 1 (derivable_pt_lim_id t)) as Hlin.
  pose proof (derivable_pt_lim_plus _ _ t _ _ Hsqrt Hlin) as Hsum.
  assert (Hs : sqrt t <> 0) by (pose proof (sqrt_lt_R0 t Hpos); lra).
  replace (5 / 10 * S * / sqrt t + K) with (S * / (2 * sqrt t) + K * 1)
    by (field; exact Hs).
  exact Hsum.
Qed.

(** X13, witness: four hours at the slider defaults. *)
Lemma philip_rate_is_derivative_witness :
  exists f : R,
    fst (Philip.philip 1 1 [1; 4]) !! 1%nat = Some (Fin f) /\
    derivable_pt_lim (fun u : R => 1 * sqrt u + 1 * u) 4 f.
Proof.
  destruct (philip_rate_is_derivative 1 1 [1; 4] 1 4) as (f & Ef & _ & Hd).
  - reflexivity.
  - lra.
  - exists f. split; [exact Ef | exact Hd].
Defined.

Lemma inf_of_sign_neg (r : R) : r < 0 -> inf_of_sign r = NInf.
Proof.
  intros Hr. unfold inf_of_sign.
  destruct (Rlt_dec 0 r); [lra |]. destruct (Rlt_dec r 0); [reflexivity | lra].
Qed.

Lemma inf_of_sign_zero : inf_of_sign 0 = NaN.
Proof.
  unfold inf_of_sign.
  destruct (Rlt_dec 0 0); [lra |]. destruct (Rlt_dec 0 0); [lra | reflexivity].
Qed.

(** X15.  Handed a time array with a point [t <= 0], the Philip branch
    returns, at [t = 0], a finite cumulative value 0 but a rate that is
    [inf] for [S > 0], [-inf] for [S < 0] and [nan] for [S = 0]; at
    [t < 0] both the rate and the cumulative value are [nan]. *)
Theorem philip_at_time_zero_or_before
    (S K : R) (time : list R) (i : nat) (t : R) :
  time !! i = Some t -> t <= 0 ->
  let series := Philip.philip S K time in
  (t = 0 ->
   snd series !! i = Some (Fin 0) /\
   (0 < S -> fst series !! i = Some PInf) /\
   (S < 0 -> fst series !! i = Some NInf) /\
   (S = 0 -> fst series !! i = Some NaN)) /\
  (t < 0 -> fst series !! i = Some NaN /\ snd series !! i = Some NaN).
Proof.
  intros Ht Hle series. subst series.
  destruct (philip_lookup S K time i) as [Hr Hc].
  rewrite Hr, Hc, Ht. cbn [fmap option_fmap option_map].
  unfold np_pow_neg_half, np_sqrt.
  destruct (Rlt_dec 0 t) as [Hpos | _]; [lra |].
  destruct (Rlt_dec t 0) as [Hneg | Hnneg].
  - split; [intros ->; lra |]. intros _. split; reflexivity.
  - split; [| intros; lra]. intros ->. cbn [np_add np_mul].
    rewrite sqrt_0. split; [f_equal; f_equal; lra |].
    split; [| split]; intros HS.
    + rewrite inf_of_sign_pos by lra. reflexivity.
    + rewrite inf_of_sign_neg by lra. reflexivity.
    + rewrite HS, Rmult_0_r, inf_of_sign_zero. reflexivity.
Qed.

(** X15, witness: the slider defaults on an array starting at 0. *)
Lemma philip_at_time_zero_or_before_witness :
  snd (Philip.philip 1 1 [0; 1]) !! 0%nat = Some (Fin 0) /\
  fst (Philip.philip 1 1 [0; 1]) !! 0%nat = Some PInf.
Proof.
  destruct (philip_at_time_zero_or_before 1 1 [0; 1] 0 0) as [Hzero _].
  - reflexivity.
  - lra.
  - destruct (Hzero eq_refl) as (Hc & Hinf & _).
    split; [exact Hc |]. apply Hinf. lra.
Defined.

(** ** The branches as the script runs them, over the slider ranges *)

Lemma linspace_le_stop (start stop : R) (num i : nat) (t : R) :
  start <= stop -> linspace start stop num !! i = Some t -> t <= stop.
Proof.
  intros Hle H. apply linspace_lookup in H as [Hi ->].
  assert (Hn : 0 < INR (num - 1) \/ INR (num - 1) = 0).
  { pose proof (pos_INR (num - 1)). lra. }
  assert (Hin : 0 <= INR i <= INR (num - 1)).
  { split; [apply pos_INR | apply le_INR; lia]. }
  destruct Hn as [Hn | Hn].
  - assert (Hq : INR i * ((stop - start) / INR (num - 1))
                 = (stop - start) * (INR i / INR (num - 1))) by (field; lra).
    assert (Hfrac : 0 <= INR i / INR (num - 1) <= 1).
    { split.
      - apply Rmult_le_pos; [lra |]. apply Rlt_le, Rinv_0_lt_compat, Hn.
      - replace 1 with (INR (num - 1) / INR (num - 1)) by (field; lra).
        unfold Rdiv. apply Rmult_le_compat_r; [| lra].
        apply Rlt_le, Rinv_0_lt_compat, Hn. }
    rewrite Hq. nra.
  - assert (INR i = 0) by lra. nra.
Qed.

Lemma script_time_range (start : R) (i : nat) (t : R) :
  0 <= start <= 24 -> linspace start 24 100 !! i = Some t -> start <= t <= 24.
Proof.
  intros Hs H. split.
  - apply (linspace_ge_start start 24 100 i); [lra | exact H].
  - apply (linspace_le_stop start 24 100 i); [lra | exact H].
Qed.

(** X16.  For every setting of the four Green-Ampt sliders the script
    plots 100 finite rates and 100 cumulative values; every rate lies
    strictly between -100 and 261 and is at least [Ks] when
    [theta_i <= theta_s]; every cumulative value lies in [[0.01, 240]]. *)
Theorem green_ampt_over_sliders (Ks psi theta_i theta_s : R) :
  green_ampt_sliders Ks psi theta_i theta_s ->
  let series := GreenAmpt.branch Ks psi theta_i theta_s in
  length (fst series) = 100%nat /\
  length (snd series) = 100%nat /\
  (forall (i : nat) (x : npfloat),
      fst series !! i = Some x ->
      exists r : R,
        x = Fin r /\ -100 < r < 261 /\
        (theta_i <= theta_s -> Ks <= r)) /\
  (forall (i : nat) (c : R),
      snd series !! i = Some c -> 1 / 100 <= c <= 240).
Proof.
  intros ([HK0 HK1] & [Hp0 Hp1] & [Hi0 Hi1] & [Hs0 Hs1]). cbv zeta.
  unfold GreenAmpt.branch.
  destruct (green_ampt_length Ks psi theta_i theta_s GreenAmpt.time) as [Lr Lc].
  unfold GreenAmpt.time in Lr, Lc at 2. rewrite linspace_length in Lr, Lc.
  split; [exact Lr |]. split; [exact Lc |]. split.
  - intros i x Hx.
    rewrite (proj1 (green_ampt_lookup Ks psi theta_i theta_s _ i)) in Hx.
    destruct (GreenAmpt.time !! i) as [t |] eqn:E; [| discriminate].
    pose proof (script_time_range (1 / 10) i t ltac:(lra) E) as [Ht0 Ht1].
    cbn [fmap option_fmap option_map] in Hx.
    rewrite ga_rate_Fin in Hx by nra. injection Hx as <-.
    eexists. split; [reflexivity |].
    rewrite ga_rate_simpl by lra.
    set (q := psi * (theta_s - theta_i) / t).
    assert (Hq : psi * (theta_s - theta_i) = q * t) by (unfold q; field; lra).
    assert (Hc : -10 <= psi * (theta_s - theta_i) <= 25) by nra.
    split; [split |].
    + destruct (Rle_dec 0 q); nra.
    + destruct (Rle_dec 0 q); nra.
    + intros Hord. assert (0 <= q * t) by nra.
      destruct (Rle_dec 0 q); nra.
  - intros i c Hc.
    rewrite (proj2 (green_ampt_lookup Ks psi theta_i theta_s _ i)) in Hc.
    destruct (GreenAmpt.time !! i) as [t |] eqn:E; [| discriminate].
    pose proof (script_time_range (1 / 10) i t ltac:(lra) E) as [Ht0 Ht1].
    injection Hc as <-. split; nra.
Qed.

Lemma green_ampt_slider_defaults : green_ampt_sliders 1 20 (2 / 10) (5 / 10).
Proof. unfold green_ampt_sliders, slider. lra. Qed.

(** X16, witness: the slider defaults. *)
Lemma green_ampt_over_sliders_witness :
  length (fst (GreenAmpt.branch 1 20 (2 / 10) (5 / 10))) = 100%nat.
Proof.
  exact (proj1 (green_ampt_over_sliders 1 20 (2 / 10) (5 / 10)
                  green_ampt_slider_defaults)).
Defined.

Lemma sqrt_between (t : R) : 9 / 100 <= t <= 25 -> 3 / 10 <= sqrt t <= 5.
Proof.
  intros [H0 H1].
  pose proof (sqrt_pos t) as Hs. pose proof (sqrt_sqrt t ltac:(lra)) as Hss.
  split; nra.
Qed.

Lemma philip_length (S K : R) (time : list R) :
  length (fst (Philip.philip S K time)) = length time /\
  length (snd (Philip.philip S K time)) = length time.
Proof. unfold Philip.philip. cbn [fst snd]. rewrite !length_fmap. split; reflexivity. Qed.

(** X17.  For every setting of the two Philip sliders the script plots 100
    finite rates and 100 finite cumulative values; every rate lies in
    [(K, K + 5/3 * S]] and every cumulative value in [(0, 5 * S + 24 * K]]. *)
Theorem philip_over_sliders (S K : R) :
  philip_sliders S K ->
  let series := Philip.branch S K in
  length (fst series) = 100%nat /\
  length (snd series) = 100%nat /\
  (forall (i : nat) (x : npfloat),
      fst series !! i = Some x ->
      exists r : R, x = Fin r /\ K < r <= K + 5 / 3 * S) /\
  (forall (i : nat) (x : npfloat),
      snd series !! i = Some x ->
      exists c : R, x = Fin c /\ 0 < c <= 5 * S + 24 * K).
Proof.
  intros ([HS0 HS1] & [HK0 HK1]). cbv zeta. unfold Philip.branch.
  destruct (philip_length S K Philip.time) as [Lr Lc].
  unfold Philip.time in Lr, Lc at 2. rewrite linspace_length in Lr, Lc.
  split; [exact Lr |]. split; [exact Lc |]. split.
  - intros i x Hx. rewrite (proj1 (philip_lookup S K _ i)) in Hx.
    destruct (Philip.time !! i) as [t |] eqn:E; [| discriminate].
    pose proof (script_time_range (1 / 10) i t ltac:(lra) E) as [Ht0 Ht1].
    cbn [fmap option_fmap option_map] in Hx.
    rewrite philip_rate_Fin in Hx by lra. injection Hx as <-.
    eexists. split; [reflexivity |]. rewrite Rpower_neg_half by lra.
    pose proof (sqrt_between t ltac:(lra)) as [Hs0 Hs1].
    assert (Hinv : / 5 <= / sqrt t <= / (3 / 10)).
    { split; apply Rinv_le_contravar; lra. }
    replace (/ (3 / 10)) with (10 / 3) in Hinv by lra.
    split; nra.
  - intros i x Hx. rewrite (proj2 (philip_lookup S K _ i)) in Hx.
    destruct (Philip.time !! i) as [t |] eqn:E; [| discriminate].
    pose proof (script_time_range (1 / 10) i t ltac:(lra) E) as [Ht0 Ht1].
    cbn [fmap option_fmap option_map] in Hx.
    rewrite philip_cumulative_Fin in Hx by lra. injection Hx as <-.
    eexists. split; [reflexivity |].
    pose proof (sqrt_between t ltac:(lra)) as [Hs0 Hs1].
    split; nra.
Qed.

Lemma philip_slider_defaults : philip_sliders 1 1.
Proof. unfold philip_sliders, slider. lra. Qed.

(** X17, witness: the slider defaults. *)
Lemma philip_over_sliders_witness :
  length (fst (Philip.branch 1 1)) = 100%nat.
Proof.
  exact (proj1 (philip_over_sliders 1 1 philip_slider_defaults)).
Defined.

(** X18.  For every setting of the three Horton sliders the script's loop
    ends without an [IndexError] and plots 100 rates and 100 cumulative
    values: every rate is at least 0.01 and below 21; the cumulative
    series starts at 0, is non-decreasing and stays in [[0, 480]]. *)
Theorem horton_over_sliders (f0 fc k : R) :
  horton_sliders f0 fc k ->
  exists rate cumulative : list R,
    Horton.branch f0 fc k = Some (rate, cumulative) /\
    length rate = 100%nat /\
    length cumulative = 100%nat /\
    (forall (i : nat) (r : R), rate !! i = Some r -> 1 / 100 <= r < 21) /\
    cumulative !! 0%nat = Some 0 /\
    non_decreasing cumulative /\
    (forall (i : nat) (c : R), cumulative !! i = Some c -> 0 <= c <= 480).
Proof.
  intros ([Hf0 Hf1] & [Hc0 Hc1] & [Hk0 Hk1]). unfold Horton.branch.
  destruct (horton_runs f0 fc k Horton.time) as (cum & Erun & Hlen & Hzero & _).
  assert (Hpos : Forall (Rle 0) Horton.time) by (apply linspace_nonneg; lra).
  assert (Hinc : increasing Horton.time) by (apply linspace_increasing; lra).
  assert (Hn : length Horton.time = 100%nat) by apply linspace_length.
  assert (Hmin : 1 / 100 <= Rmin f0 fc) by (apply Rmin_glb; lra).
  assert (Hmax : Rmax f0 fc <= 20) by (apply Rmax_lub; lra).
  exists (Horton.rate f0 fc k Horton.time), cum.
  split; [exact Erun |]. split; [rewrite rate_length; exact Hn |].
  split; [lia |]. split; [| split; [| split]].
  - intros i r Hr. rewrite rate_lookup in Hr.
    destruct (Horton.time !! i) as [t |] eqn:E; [| discriminate].
    injection Hr as <-.
    pose proof (script_time_range 0 i t ltac:(lra) E) as [Ht0 Ht1].
    pose proof (horton_rate_bounds f0 fc k t ltac:(lra) Ht0) as [Hlo Hhi].
    split; lra.
  - apply Hzero. intros Hnil. rewrite Hnil in Hn. discriminate.
  - apply (horton_cumulative_non_decreasing f0 fc k Horton.time);
      try assumption; lra.
  - intros i c Hc.
    pose proof (lookup_lt_Some _ _ _ Hc) as Hlt. rewrite Hlen in Hlt.
    destruct (lookup_lt_is_Some_2 Horton.time i Hlt) as [t Et].
    pose proof (script_time_range 0 i t ltac:(lra) Et) as [Ht0 Ht1].
    destruct (horton_cumulative_between f0 fc k Horton.time cum 0
                ltac:(lra) Hpos Hinc Erun (proj1 horton_time_ends) i t Et)
      as (_ & c' & Ec' & Hlo & Hhi).
    rewrite Hc in Ec'. injection Ec' as <-.
    split; nra.
Qed.

Lemma horton_slider_defaults : horton_sliders 10 1 1.
Proof. unfold horton_sliders, slider. lra. Qed.

(** X18, witness: the slider defaults. *)
Lemma horton_over_sliders_witness :
  exists rate cumulative : list R,
    Horton.branch 10 1 1 = Some (rate, cumulative) /\
    cumulative !! 0%nat = Some 0.
Proof.
  destruct (horton_over_sliders 10 1 1 horton_slider_defaults)
    as (rate & cumulative & Erun & _ & _ & _ & Hfirst & _).
  exists rate, cumulative. split; [exact Erun | exact Hfirst].
Defined.
